(** * Turn reassembly and PCM-to-WAV framing of the receptionist client

    A shallow embedding of the audio pipeline of [src/index.tsx] and of its
    near-duplicate text entry point, whose audio functions and turn loop are
    the same: [arrayBufferToBase64], [base64ToUint8Array],
    [concatUint8Arrays], [createWavHeader], [parseMimeType], [convertToWav],
    the message loop of [handleTurn] and [processQueueContinuously].

    Conventions of the embedding.
    - A JavaScript string is a [string]: its code units are the 8-bit
      characters of [ascii] (Latin-1), which covers MIME types, base64 text
      and the binary strings exchanged with [atob]/[btoa].
    - A JavaScript number is a [number], an IEEE 754 double: [NaN], an
      infinity, or a finite value held as the rational it denotes.  Sums,
      products and quotients are rounded to the nearest double, ties to
      even, and overflow to an infinity; integers are exact up to 2^53 in
      magnitude.  The two zeros are one value: the program never tells
      them apart.
    - A [Uint8Array] / [ArrayBuffer] is a [list byte].
    - A thrown exception is [None] in the [option] monad.
    - The built-ins [trim], [split], [parseInt], [atob], [btoa] and the
      [DataView] stores follow ECMAScript and the HTML standard.
    - The response queue is the list of the messages in the order the
      transport delivers them; updates of the page (DOM, audio player) are
      left out. *)

From Stdlib Require Import ZArith NArith QArith Lia ZifyNat ZifyN.
From Stdlib Require Qcanon.
From Stdlib Require Import Strings.Ascii Strings.String Strings.Byte.
From stdpp Require Import base option list strings.

Local Close Scope Q_scope.
Local Open Scope Z_scope.

(** ** Numbers *)

(** A JavaScript number: [NaN], an infinity ([true] for the negative one), or
    a finite double, held as the rational it denotes in lowest terms. *)
Inductive number : Type :=
  | NaN : number
  | Infinity : bool → number
  | Fin : Q → number.

(** A rational in lowest terms that is m / 2^k with |m| ≤ 2^53 and k ≤ 1074
    is a double: its significand fits 53 bits and its exponent is in range. *)
Fixpoint is_pow2 (p : positive) : bool :=
  match p with
  | xH => true
  | xO p' => is_pow2 p'
  | xI _ => false
  end.

Definition exact_double (q : Q) : bool :=
  (Z.abs (Qnum q) <=? 2 ^ 53) && is_pow2 (Qden q) && (Z.pos (Qden q) <=? 2 ^ 1074).

(** The [k] with 2^k ≤ n/d < 2^(k+1). *)
Definition floor_log2 (n d : positive) : Z :=
  let k := Z.log2 (Z.pos n) - Z.log2 (Z.pos d) in
  if (if 0 <=? k then Z.pos d * 2 ^ k <=? Z.pos n
      else Z.pos d <=? Z.pos n * 2 ^ (- k))
  then k else k - 1.

(** The integer nearest to n/d, the even one of two that are equally near. *)
Definition round_half_even (n d : Z) : Z :=
  let f := n / d in
  let r := n mod d in
  if 2 * r <? d then f
  else if d <? 2 * r then f + 1
  else if Z.even f then f else f + 1.

(** IEEE 754 rounding to nearest, ties to even, of a rational in lowest
    terms that is not zero: the significand is rounded to 53 bits at the
    exponent of the value, or at -1074 for a subnormal; a result of 2^1024
    or more is an infinity. *)
Definition nearest_double (q : Q) : number :=
  let neg := Qnum q <? 0 in
  let sign := if neg then -1 else 1 in
  let n := Z.abs (Qnum q) in
  let d := Z.pos (Qden q) in
  let e := Z.max (floor_log2 (Z.to_pos n) (Qden q) - 52) (-1074) in
  if 0 <=? e then
    let m := round_half_even n (d * 2 ^ e) in
    if 2 ^ 1024 <=? m * 2 ^ e then Infinity neg
    else Fin (Qred (inject_Z (sign * m * 2 ^ e)))
  else
    let m := round_half_even (n * 2 ^ (- e)) d in
    Fin (Qred (Qmake (sign * m) (Z.to_pos (2 ^ (- e))))).

(** The double of a real number that is rational. *)
Definition round (q : Q) : number :=
  let q := Qred q in
  if exact_double q then Fin q else nearest_double q.

(** The number of an integer literal or of an integer computed exactly. *)
Definition num (z : Z) : number := round (inject_Z z).

Definition negative (q : Q) : bool := Qnum q <? 0.

Definition is_zero (q : Q) : bool := Qnum q =? 0.

Definition number_add (a b : number) : number :=
  match a, b with
  | NaN, _ | _, NaN => NaN
  | Infinity s, Infinity s' => if Bool.eqb s s' then Infinity s else NaN
  | Infinity s, Fin _ | Fin _, Infinity s => Infinity s
  | Fin x, Fin y => round (Qplus x y)
  end.

Definition number_mul (a b : number) : number :=
  match a, b with
  | NaN, _ | _, NaN => NaN
  | Infinity s, Infinity s' => Infinity (xorb s s')
  | Infinity s, Fin x | Fin x, Infinity s =>
      if is_zero x then NaN else Infinity (xorb s (negative x))
  | Fin x, Fin y => round (Qmult x y)
  end.

(** [a / b].  The zero of a [number] stands for both zeros of JavaScript,
    and a zero divisor is read as +0; the program divides by the literal 8
    only. *)
Definition number_div (a b : number) : number :=
  match a, b with
  | NaN, _ | _, NaN => NaN
  | Infinity _, Infinity _ => NaN
  | Infinity s, Fin y => Infinity (xorb s (negative y))
  | Fin _, Infinity _ => Fin 0%Q
  | Fin x, Fin y =>
      if is_zero y then (if is_zero x then NaN else Infinity (negative x))
      else round (Qdiv x y)
  end.

Definition isNaN (n : number) : bool :=
  match n with NaN => true | _ => false end.

(** Rounding toward zero, the [truncate] of ECMAScript's [ToUint32]. *)
Definition truncate (q : Q) : Z := Z.quot (Qnum q) (Z.pos (Qden q)).

(** [ToUint8], [ToUint16] and [ToUint32] for [bits] = 8, 16, 32: [NaN] and
    the infinities become 0, anything else is truncated and wrapped modulo
    2^bits. *)
Definition ToUint (bits : Z) (n : number) : Z :=
  match n with
  | NaN => 0
  | Infinity _ => 0
  | Fin q => truncate q mod 2 ^ bits
  end.

(** ** Strings *)

Definition charCode (c : ascii) : Z := Z.of_N (N_of_ascii c).

(** [s.charCodeAt(i)]: [NaN] past the end of the string. *)
Definition charCodeAt (s : string) (i : nat) : number :=
  match String.get i s with
  | Some c => num (charCode c)
  | None => NaN
  end.

(** WhiteSpace and LineTerminator code units below 256: TAB, LF, VT, FF, CR,
    SPACE and NO-BREAK SPACE.  They are what [trim] and [parseInt] strip. *)
Definition isWhiteSpace (c : ascii) : bool :=
  match charCode c with
  | 9 | 10 | 11 | 12 | 13 | 32 | 160 => true
  | _ => false
  end.

Fixpoint trimStart (s : string) : string :=
  match s with
  | String c s' => if isWhiteSpace c then trimStart s' else s
  | EmptyString => EmptyString
  end.

Definition trimEnd (s : string) : string :=
  String.rev (trimStart (String.rev s)).

Definition trim (s : string) : string := trimEnd (trimStart s).

(** [s.split(sep)] for a one-character separator: never the empty array. *)
Fixpoint split (sep : ascii) (s : string) : list string :=
  match s with
  | EmptyString => [EmptyString]
  | String c s' =>
      if Ascii.eqb c sep then EmptyString :: split sep s'
      else match split sep s' with
           | piece :: pieces => String c piece :: pieces
           | [] => [String c EmptyString]
           end
  end.

(** [s.startsWith(c)] for a one-character prefix. *)
Definition startsWith (s : string) (c : ascii) : bool :=
  match s with
  | String c' _ => Ascii.eqb c' c
  | EmptyString => false
  end.

(** [s.slice(1)] *)
Definition slice1 (s : string) : string :=
  match s with
  | String _ s' => s'
  | EmptyString => EmptyString
  end.

(** Truthiness of a string and of a possibly [undefined] string. *)
Definition truthy (s : string) : bool :=
  match s with EmptyString => false | String _ _ => true end.

Definition truthy_opt (o : option string) : bool :=
  match o with Some s => truthy s | None => false end.

(** [o || ''] *)
Definition or_empty (o : option string) : string :=
  match o with
  | Some s => if truthy s then s else EmptyString
  | None => EmptyString
  end.

(** *** [parseInt(s, 10)]

    The digits denote an integer and the result is the double nearest to
    it, as [num] gives it: the integer itself up to 2^53, an infinity from
    2^1024 - 2^970 on.  (ECMAScript lets an implementation read the digits
    after the 20th as zeros; the engines read them all, and so does this
    definition.) *)

Definition digit (c : ascii) : option Z :=
  let n := charCode c in
  if (48 <=? n) && (n <=? 57) then Some (n - 48) else None.

(** The longest prefix of decimal digits, read left to right with
    accumulator [acc]; [seen] tells whether a digit was consumed. *)
Fixpoint digits (s : string) (acc : Z) (seen : bool) : option Z :=
  match s with
  | String c s' =>
      match digit c with
      | Some d => digits s' (10 * acc + d) true
      | None => if seen then Some acc else None
      end
  | EmptyString => if seen then Some acc else None
  end.

Definition parseInt10 (s : string) : number :=
  let s := trimStart s in
  let '(sign, s) :=
    match s with
    | String "-" s' => (-1, s')
    | String "+" s' => (1, s')
    | _ => (1, s)
    end in
  match digits s 0 false with
  | Some v => num (sign * v)
  | None => NaN
  end.

(** ** MIME type parsing *)

Record WavConversionOptions : Type := {
  numChannels : number;
  sampleRate : number;
  bitsPerSample : number;
}.

(** The body of the [for (const param of params)] loop. *)
Definition parseMimeType_param (rate : number) (param : string) : number :=
  let kv := trim <$> split "=" param in
  let key := kv !! 0%nat in
  let value := kv !! 1%nat in
  if bool_decide (key = Some "rate"%string) && truthy_opt value
  then parseInt10 (default EmptyString value)
  else rate.

Definition parseMimeType (mimeType : string) : WavConversionOptions :=
  let params := trim <$> split ";" mimeType in
  let formatPart := split "/" (default EmptyString (params !! 0%nat)) !! 1%nat in
  let bits0 := num 16 in
  let bits :=
    if truthy_opt formatPart && startsWith (default EmptyString formatPart) "L"
    then
      let bits := parseInt10 (slice1 (default EmptyString formatPart)) in
      if negb (isNaN bits) then bits else bits0
    else bits0 in
  {| numChannels := num 1;
     bitsPerSample := bits;
     sampleRate := foldl parseMimeType_param (num 24000) params |}.

(** ** Bytes and base64 *)

(** The byte holding [n] modulo 256: a store into a [Uint8Array] element. *)
Definition byte_of_N (n : N) : byte := default x00 (Byte.of_N (n mod 256)).

Definition byte_of_Z (z : Z) : byte := byte_of_N (Z.to_N (z mod 256)).

Definition Z_of_byte (b : byte) : Z := Z.of_N (Byte.to_N b).

(** [String.fromCharCode(b)] for an element [b] of a [Uint8Array]. *)
Definition fromCharCode (b : byte) : string := String (ascii_of_byte b) EmptyString.

Definition b64alphabet : string :=
  "ABCDEFGHIJKLMNOPQRSTUVWXYZabcdefghijklmnopqrstuvwxyz0123456789+/".

(** The base64 character of the sextet [n]. *)
Definition b64char (n : N) : ascii :=
  default "A"%char (String.get (N.to_nat n) b64alphabet).

(** The sextet of a base64 character; [None] outside the alphabet. *)
Definition b64val (c : ascii) : option N :=
  let n := N_of_ascii c in
  (if (65 <=? n) && (n <=? 90) then Some (n - 65)
   else if (97 <=? n) && (n <=? 122) then Some (n - 71)
   else if (48 <=? n) && (n <=? 57) then Some (n + 4)
   else if n =? 43 then Some 62
   else if n =? 47 then Some 63
   else None)%N.

(** [btoa]: three code units give four characters; a last group of one or
    two code units is padded with "=".  (Code units above 255, on which the
    browser throws, do not exist in [string].) *)
Fixpoint btoa (s : string) : string :=
  match s with
  | EmptyString => EmptyString
  | String a EmptyString =>
      let x := N_of_ascii a in
      String (b64char (x / 4)) (String (b64char (x mod 4 * 16)) "==")%N
  | String a (String b EmptyString) =>
      let x := N_of_ascii a in
      let y := N_of_ascii b in
      (String (b64char (x / 4)) (String (b64char (x mod 4 * 16 + y / 16))
        (String (b64char (y mod 16 * 4)) "=")))%N
  | String a (String b (String c s')) =>
      let x := N_of_ascii a in
      let y := N_of_ascii b in
      let z := N_of_ascii c in
      (String (b64char (x / 4)) (String (b64char (x mod 4 * 16 + y / 16))
        (String (b64char (y mod 16 * 4 + z / 64)) (String (b64char (z mod 64))
          (btoa s')))))%N
  end.

(** ASCII whitespace of the forgiving base64 decoder: TAB, LF, FF, CR, SPACE. *)
Definition isAsciiWhitespace (c : ascii) : bool :=
  match N_of_ascii c with
  | 9 | 10 | 12 | 13 | 32 => true
  | _ => false
  end%N.

(** Remove a trailing "=", if there is one. *)
Definition drop_trailing_eq (data : list ascii) : list ascii :=
  match reverse data with
  | c :: r => if Ascii.eqb c "=" then reverse r else data
  | [] => data
  end.

(** When the length is a multiple of four, remove one or two trailing "=". *)
Definition strip_padding (data : list ascii) : list ascii :=
  if (length data mod 4 =? 0)%nat
  then drop_trailing_eq (drop_trailing_eq data)
  else data.

(** Sextets to bytes: 24 bits give three bytes; of a last group of 12 or 18
    bits the trailing 4 or 2 bits are discarded. *)
Fixpoint sextets_to_bytes (l : list N) : list N :=
  match l with
  | a :: b :: c :: d :: l' =>
      (a * 4 + b / 16) :: (b mod 16 * 16 + c / 4) :: (c mod 4 * 64 + d)
        :: sextets_to_bytes l'
  | [a; b; c] => [a * 4 + b / 16; b mod 16 * 16 + c / 4]
  | [a; b] => [a * 4 + b / 16]
  | _ => []
  end%N.

(** [atob], the forgiving base64 decoder of the HTML standard; [None] is its
    [InvalidCharacterError]. *)
Definition atob (s : string) : option string :=
  let data := filter (λ c, isAsciiWhitespace c = false) (list_ascii_of_string s) in
  let data := strip_padding data in
  if (length data mod 4 =? 1)%nat then None
  else
    sextets ← mapM b64val data;
    Some (string_of_list_ascii (ascii_of_N <$> sextets_to_bytes sextets)).

(** Converts an ArrayBuffer to a Base64 string. *)
Definition arrayBufferToBase64 (buffer : list byte) : string :=
  let bytes := buffer in
  let binary := foldl (λ binary b, binary +:+ fromCharCode b) EmptyString bytes in
  btoa binary.

Definition base64ToUint8Array (base64 : string) : option (list byte) :=
  binaryString ← atob base64;
  let len := String.length binaryString in
  let bytes := replicate len x00 in
  Some (foldl (λ bytes i, <[i := byte_of_Z (ToUint 8 (charCodeAt binaryString i))]> bytes)
              bytes (seq 0 len)).

(** [target.set(source, offset)] on typed arrays: a [RangeError] when the
    source does not fit. *)
Definition TypedArray_set (target source : list byte) (offset : nat) : option (list byte) :=
  if decide (offset + length source ≤ length target)%nat
  then Some (list_inserts offset source target)
  else None.

(** The [for (const arr of arrays)] loop of [concatUint8Arrays]. *)
Fixpoint concatUint8Arrays_loop (arrays : list (list byte)) (result : list byte)
    (offset : nat) : option (list byte) :=
  match arrays with
  | [] => Some result
  | arr :: arrays' =>
      result' ← TypedArray_set result arr offset;
      concatUint8Arrays_loop arrays' result' (offset + length arr)
  end.

Definition concatUint8Arrays (arrays : list (list byte)) : option (list byte) :=
  let totalLength := foldl (λ acc val, acc + length val)%nat 0%nat arrays in
  let result := replicate totalLength x00 in
  concatUint8Arrays_loop arrays result 0.

(** ** The WAV header *)

(** The [size] low-order bytes of [v], least significant first. *)
Fixpoint le_bytes (size : nat) (v : Z) : list byte :=
  match size with
  | O => []
  | S size' => byte_of_Z v :: le_bytes size' (v / 256)
  end.

(** [view.setUint8], [view.setUint16] and [view.setUint32] of a [DataView]
    for [size] = 1, 2, 4: a [RangeError] outside the buffer. *)
Definition setUint (size : nat) (view : list byte) (byteOffset : nat)
    (value : number) (littleEndian : bool) : option (list byte) :=
  if decide (byteOffset + size ≤ length view)%nat then
    let bytes := le_bytes size (ToUint (8 * Z.of_nat size) value) in
    Some (list_inserts byteOffset (if littleEndian then bytes else reverse bytes) view)
  else None.

Definition setUint8 (view : list byte) (byteOffset : nat) (value : number) :=
  setUint 1 view byteOffset value false.
Definition setUint16 := setUint 2.
Definition setUint32 := setUint 4.

Definition createWavHeader (dataLength : number) (options : WavConversionOptions)
    : option (list byte) :=
  let byteRate := number_div (number_mul (number_mul (sampleRate options)
                    (numChannels options)) (bitsPerSample options)) (num 8) in
  let blockAlign := number_div (number_mul (numChannels options)
                      (bitsPerSample options)) (num 8) in
  let view := replicate 44 x00 in
  (* RIFF identifier, chunk length, WAVE identifier *)
  view ← setUint8 view 0 (charCodeAt "R" 0);
  view ← setUint8 view 1 (charCodeAt "I" 0);
  view ← setUint8 view 2 (charCodeAt "F" 0);
  view ← setUint8 view 3 (charCodeAt "F" 0);
  view ← setUint32 view 4 (number_add (num 36) dataLength) true;
  view ← setUint8 view 8 (charCodeAt "W" 0);
  view ← setUint8 view 9 (charCodeAt "A" 0);
  view ← setUint8 view 10 (charCodeAt "V" 0);
  view ← setUint8 view 11 (charCodeAt "E" 0);
  (* FMT identifier, chunk length, audio format, channels, sample rate *)
  view ← setUint8 view 12 (charCodeAt "f" 0);
  view ← setUint8 view 13 (charCodeAt "m" 0);
  view ← setUint8 view 14 (charCodeAt "t" 0);
  view ← setUint8 view 15 (charCodeAt " " 0);
  view ← setUint32 view 16 (num 16) true;
  view ← setUint16 view 20 (num 1) true;
  view ← setUint16 view 22 (numChannels options) true;
  view ← setUint32 view 24 (sampleRate options) true;
  (* Byte rate, block align, bits per sample *)
  view ← setUint32 view 28 byteRate true;
  view ← setUint16 view 32 blockAlign true;
  view ← setUint16 view 34 (bitsPerSample options) true;
  (* data identifier, chunk length *)
  view ← setUint8 view 36 (charCodeAt "d" 0);
  view ← setUint8 view 37 (charCodeAt "a" 0);
  view ← setUint8 view 38 (charCodeAt "t" 0);
  view ← setUint8 view 39 (charCodeAt "a" 0);
  view ← setUint32 view 40 dataLength true;
  Some view.

Definition convertToWav (rawData : list string) (mimeType : string)
    : option (list byte) :=
  let options := parseMimeType mimeType in
  dataChunks ← mapM base64ToUint8Array rawData;
  data ← concatUint8Arrays dataChunks;
  wavHeader ← createWavHeader (num (Z.of_nat (length data))) options;
  concatUint8Arrays [wavHeader; data].

(** ** Reading a WAV header back *)

(** The unsigned integer held by little-endian bytes. *)
Definition read_le (bytes : list byte) : Z :=
  foldr (λ b acc, Z_of_byte b + 256 * acc) 0 bytes.

(** The [size]-byte little-endian field at [byteOffset]. *)
Definition getUint (size : nat) (wav : list byte) (byteOffset : nat) : Z :=
  read_le (take size (drop byteOffset wav)).

(** The two- and four-byte little-endian fields of the header layout. *)
Definition u16le (v : Z) : list byte := [byte_of_Z v; byte_of_Z (v / 256)].

Definition u32le (v : Z) : list byte :=
  [byte_of_Z v; byte_of_Z (v / 256); byte_of_Z (v / 65536); byte_of_Z (v / 16777216)].

(** The 44-byte canonical header, field by field, as the format lays it
    out: offsets 0, 4, 8, 12, 16, 20, 22, 24, 28, 32, 34, 36 and 40. *)
Definition header_layout
    (chunkSize channels rate byteRate blockAlign bits dataSize : Z) : list byte :=
  list_byte_of_string "RIFF" ++ u32le chunkSize ++
  list_byte_of_string "WAVE" ++
  list_byte_of_string "fmt " ++ u32le 16 ++ u16le 1 ++
  u16le channels ++ u32le rate ++ u32le byteRate ++ u16le blockAlign ++
  u16le bits ++
  list_byte_of_string "data" ++ u32le dataSize.

(** Reading the four descriptive fields of a WAV back gives [options] and
    [dataLength]: channels at 22, sample rate at 24, bits per sample at 34,
    data length at 40. *)
Definition reads_back (wav : list byte) (options : WavConversionOptions)
    (dataLength : nat) : Prop :=
  num (getUint 2 wav 22) = numChannels options
  ∧ num (getUint 4 wav 24) = sampleRate options
  ∧ num (getUint 2 wav 34) = bitsPerSample options
  ∧ getUint 4 wav 40 = Z.of_nat dataLength.

(** ** Inbound messages *)

Module Genai.

Record Blob : Type := {
  data : option string;
  mimeType : option string;
}.

Record Part : Type := {
  text : option string;
  inlineData : option Blob;
}.

Record Content : Type := {
  parts : option (list Part);
}.

Record LiveServerContent : Type := {
  modelTurn : option Content;
  turnComplete : option bool;
}.

Record LiveServerMessage : Type := {
  serverContent : option LiveServerContent;
}.

End Genai.

(** ** The turn loop *)

(** The variables [handleTurn] works on: its locals [turnComplete],
    [turnText] and [audioMimeType], and the module-level [audioParts]. *)
Record Turn : Type := mkTurn {
  turnComplete : bool;
  turnText : string;
  audioMimeType : string;
  audioParts : list string;
}.

(** The body of [for (const part of ...parts)]. *)
Definition handle_part (t : Turn) (part : Genai.Part) : Turn :=
  let t :=
    if truthy_opt (Genai.text part)
    then mkTurn (turnComplete t) (turnText t +:+ default EmptyString (Genai.text part))
                (audioMimeType t) (audioParts t)
    else t in
  match Genai.inlineData part with
  | Some inlineData =>
      match Genai.data inlineData with
      | Some data =>
          if truthy data then
            let audioParts' := audioParts t ++ [data] in
            if negb (truthy (audioMimeType t))
            then mkTurn (turnComplete t) (turnText t)
                        (or_empty (Genai.mimeType inlineData)) audioParts'
            else mkTurn (turnComplete t) (turnText t) (audioMimeType t) audioParts'
          else t
      | None => t
      end
  | None => t
  end.

(** [message.serverContent?.modelTurn?.parts] *)
Definition message_parts (message : Genai.LiveServerMessage) : option (list Genai.Part) :=
  (Genai.serverContent message ≫= Genai.modelTurn) ≫= Genai.parts.

(** [message.serverContent?.turnComplete], as a condition. *)
Definition message_turnComplete (message : Genai.LiveServerMessage) : bool :=
  match Genai.serverContent message ≫= Genai.turnComplete with
  | Some b => b
  | None => false
  end.

(** The body of [while (!turnComplete)] once a message was dequeued. *)
Definition handle_message (t : Turn) (message : Genai.LiveServerMessage) : Turn :=
  let t :=
    match message_parts message with
    | Some parts => foldl handle_part t parts
    | None => t
    end in
  if message_turnComplete message
  then mkTurn true (turnText t) (audioMimeType t) (audioParts t)
  else t.

(** The [while (!turnComplete)] loop.  [responseQueue] lists the messages in
    the order the transport delivers them; [waitMessage] takes the first.
    On the empty queue [waitMessage] never resolves: the loop is left where
    it stands, with [turnComplete] still false. *)
Fixpoint turn_loop (t : Turn) (responseQueue : list Genai.LiveServerMessage)
    : Turn * list Genai.LiveServerMessage :=
  if turnComplete t then (t, responseQueue)
  else
    match responseQueue with
    | [] => (t, [])
    | message :: responseQueue' => turn_loop (handle_message t message) responseQueue'
    end.

(** The state [handleTurn] starts its loop in: fresh locals, and the
    module-level [audioParts] as the previous turn left it. *)
Definition initial_turn (audioParts : list string) : Turn :=
  mkTurn false EmptyString EmptyString audioParts.

(** What the page holds between turns. *)
Record Session : Type := mkSession {
  responseQueue : list Genai.LiveServerMessage;
  sessionAudioParts : list string;
  isProcessingTurn : bool;
}.

Inductive Audio : Type :=
  | NoAudio : Audio
  | Played : list byte → Audio
  | ConvertFailed : Audio.

Inductive Outcome : Type :=
  | Waiting : Turn → Outcome
  | Finished : string → Audio → Outcome.

(** [handleTurn], without its DOM updates: the transcript is the [turnText]
    shown in the model's chat bubble, the audio is what is handed to the
    player.  When [convertToWav] throws, the statements after it are not
    run. *)
Definition handleTurn (s : Session) : Session * Outcome :=
  let t0 := initial_turn (sessionAudioParts s) in
  let '(t, queue) := turn_loop t0 (responseQueue s) in
  if negb (turnComplete t) then (mkSession queue (audioParts t) true, Waiting t)
  else if (0 <? length (audioParts t))%nat && truthy (audioMimeType t) then
    match convertToWav (audioParts t) (audioMimeType t) with
    | Some wavData => (mkSession queue [] false, Finished (turnText t) (Played wavData))
    | None => (mkSession queue (audioParts t) true, Finished (turnText t) ConvertFailed)
    end
  else (mkSession queue (audioParts t) false, Finished (turnText t) NoAudio).

(** [processQueueContinuously] of [src/index.tsx], with the call of it that
    ends [handleTurn]: while the queue holds messages and no turn is being
    processed, the next turn is started.  A turn that is left waiting, or in
    which [convertToWav] threw, keeps [isProcessingTurn] set and so ends the
    chain.  Every turn dequeues at least one message, so the length of the
    queue is enough [fuel].  (The text entry point has no such chain: there
    each form submission calls [handleTurn].) *)
Fixpoint processQueue (fuel : nat) (s : Session) : Session * list Outcome :=
  match fuel with
  | O => (s, [])
  | S fuel' =>
      match responseQueue s with
      | [] => (s, [])
      | _ :: _ =>
          if isProcessingTurn s then (s, [])
          else
            let '(s', outcome) := handleTurn s in
            let '(s'', outcomes) := processQueue fuel' s' in
            (s'', outcome :: outcomes)
      end
  end.

Definition processQueueContinuously (s : Session) : Session * list Outcome :=
  processQueue (length (responseQueue s)) s.

(** ** Vocabulary of the properties *)

(** All parts of a sequence of messages, in arrival order. *)
Definition all_parts (messages : list Genai.LiveServerMessage) : list Genai.Part :=
  mjoin ((λ m, default [] (message_parts m)) <$> messages).

(** The concatenation of the [text] fields of the parts that have one. *)
Definition texts (parts : list Genai.Part) : string :=
  foldr (λ p acc, default EmptyString (Genai.text p) +:+ acc) EmptyString parts.

(** The parts that carry audio data, i.e. pass [part.inlineData?.data]. *)
Definition carries_audio (part : Genai.Part) : bool :=
  truthy_opt (Genai.inlineData part ≫= Genai.data).

(** The [mimeType || ''] of the parts that carry audio data, in order. *)
Definition audio_mimeTypes (parts : list Genai.Part) : list string :=
  (λ p, or_empty (Genai.inlineData p ≫= Genai.mimeType)) <$> filter (λ p, carries_audio p = true) parts.

(** The [data] of the parts that carry audio data, in order. *)
Definition audio_datas (parts : list Genai.Part) : list string :=
  (λ p, default EmptyString (Genai.inlineData p ≫= Genai.data)) <$> filter (λ p, carries_audio p = true) parts.

(** The first non-empty string of a list, [''] when there is none. *)
Definition first_truthy (l : list string) : string :=
  default EmptyString (head (filter (λ s, truthy s = true) l)).

(** The [mimeType || ''] of the first part that carries audio data. *)
Definition first_audio_mimeType (parts : list Genai.Part) : string :=
  default EmptyString (head (audio_mimeTypes parts)).

(** Shorthands for writing messages down. *)
Definition msg (parts : option (list Genai.Part)) (complete : option bool) : Genai.LiveServerMessage :=
  {| Genai.serverContent := Some {| Genai.modelTurn := Some {| Genai.parts := parts |};
                                     Genai.turnComplete := complete |} |}.
Definition textPart (s : string) : Genai.Part :=
  {| Genai.text := Some s; Genai.inlineData := None |}.
Definition audioPart (d : option string) (m : option string) : Genai.Part :=
  {| Genai.text := None; Genai.inlineData := Some {| Genai.data := d; Genai.mimeType := m |} |}.

(** The message has a [serverContent] whose [turnComplete] field is [true]. *)
Definition has_turnComplete (m : Genai.LiveServerMessage) : Prop :=
  ∃ content,
    Genai.serverContent m = Some content ∧ Genai.turnComplete content = Some true.

(** ** Decimal numerals *)

(** The character of the decimal digit [d]. *)
Definition digit_char (d : Z) : ascii := ascii_of_N (Z.to_N (48 + d)).

(** The numeral written with the digits [ds], most significant first, and
    the number it denotes. *)
Definition numeral (ds : list Z) : string :=
  string_of_list_ascii (digit_char <$> ds).

Definition numeral_value (ds : list Z) : Z :=
  foldl (λ acc d, 10 * acc + d) 0 ds.

(** ** The chat bubble of a turn *)

(** What a [div] of the chat shows: markup set through [innerHTML], or the
    text set through [textContent]. *)
Inductive NodeContent : Type :=
  | Markup : string → NodeContent
  | Text : string → NodeContent.

Record Div : Type := mkDiv {
  classList : list string;
  content : NodeContent;
}.

(** [element.classList.add(...tokens)]: a token already present is not added
    again. *)
Definition classList_add (tokens : list string) (element : Div) : Div :=
  mkDiv (foldl (λ classes token,
                  if decide (token ∈ classes) then classes else classes ++ [token])
               (classList element) tokens)
        (content element).

(** [element.classList.remove(token)] *)
Definition classList_remove (token : string) (element : Div) : Div :=
  mkDiv (filter (λ c, c ≠ token) (classList element)) (content element).

(** The markup of one dot of the loading indicator; [quote] is the double
    quote character. *)
Definition dot_markup : string :=
  let quote := String (ascii_of_N 34) EmptyString in
  "<div class=" +:+ quote +:+ "dot" +:+ quote +:+ "></div>".

(** The [div] that [showLoadingIndicator] appends to the chat and returns. *)
Definition showLoadingIndicator : Div :=
  let messageDiv := mkDiv [] (Markup EmptyString) in
  let messageDiv :=
    classList_add ["chat-message"; "model-message"; "loading-indicator"]%string messageDiv in
  mkDiv (classList messageDiv) (Markup (dot_markup +:+ dot_markup +:+ dot_markup)).

Definition updateModelMessage (element : Div) (newText : string) : Div :=
  let element := classList_remove "loading-indicator" element in
  let element := mkDiv (classList element) (Markup EmptyString) in
  mkDiv (classList element) (Text newText).

(** The body of [for (const part of ...parts)] with the bubble
    [currentModelTurn] next to the variables of the turn: the bubble is
    updated, with the text appended so far, for a part whose [text] is not
    empty. *)
Definition show_part (st : Turn * Div) (part : Genai.Part) : Turn * Div :=
  let t := handle_part st.1 part in
  (t, if truthy_opt (Genai.text part) then updateModelMessage st.2 (turnText t) else st.2).

(** The body of [while (!turnComplete)], with the bubble. *)
Definition show_message (st : Turn * Div) (message : Genai.LiveServerMessage)
    : Turn * Div :=
  let st :=
    match message_parts message with
    | Some parts => foldl show_part st parts
    | None => st
    end in
  (if message_turnComplete message
   then mkTurn true (turnText st.1) (audioMimeType st.1) (audioParts st.1)
   else st.1,
   st.2).

(** The bubble that shows the transcript [s]: the loading indicator as long
    as [s] is empty, a model message with the text [s] after that. *)
Definition bubble_showing (s : string) : Div :=
  if truthy s
  then mkDiv ["chat-message"; "model-message"]%string (Text s)
  else showLoadingIndicator.

(** ** The page as it reacts to events *)

(** The statements of [handleTurn] that follow its loop, when [turnComplete]
    is set; [busy] is [isProcessingTurn] at that point, which a throwing
    [convertToWav] leaves as it is. *)
Definition finishTurn (busy : bool) (t : Turn) (queue : list Genai.LiveServerMessage)
    : Session * Outcome :=
  if (0 <? length (audioParts t))%nat && truthy (audioMimeType t) then
    match convertToWav (audioParts t) (audioMimeType t) with
    | Some wavData => (mkSession queue [] false, Finished (turnText t) (Played wavData))
    | None => (mkSession queue (audioParts t) busy, Finished (turnText t) ConvertFailed)
    end
  else (mkSession queue (audioParts t) false, Finished (turnText t) NoAudio).

Module Page.

(** The locals of a call of [handleTurn] that is suspended in
    [await waitMessage()]; its [turnComplete] is false. *)
Record Locals : Type := mkLocals {
  localText : string;
  localMimeType : string;
}.

(** The page of [src/index.tsx]: its module-level variables, the calls of
    [handleTurn] suspended in [waitMessage] (each with its interval timer),
    oldest first, and what the turns that ended have returned so far. *)
Record State : Type := mkState {
  session : Session;
  suspended : list Locals;
  ended : list Outcome;
}.

Definition initial : State := mkState (mkSession [] [] false) [] [].

(** A suspended call, resumed with the [audioParts] of the moment. *)
Definition resume (l : Locals) (audioParts : list string) : Turn :=
  mkTurn false (localText l) (localMimeType l) audioParts.

(** [handleTurn()] up to its first [await]: the flag is set, the locals are
    fresh, and [waitMessage] has set its interval. *)
Definition handleTurn_start (σ : State) : State :=
  mkState (mkSession (responseQueue (session σ)) (sessionAudioParts (session σ)) true)
          (suspended σ ++ [mkLocals EmptyString EmptyString])
          (ended σ).

Definition processQueueContinuously (σ : State) : State :=
  match responseQueue (session σ) with
  | [] => σ
  | _ :: _ => if isProcessingTurn (session σ) then σ else handleTurn_start σ
  end.

(** The [onmessage] callback. *)
Definition onmessage (message : Genai.LiveServerMessage) (σ : State) : State :=
  processQueueContinuously
    (mkState (mkSession (responseQueue (session σ) ++ [message])
                        (sessionAudioParts (session σ))
                        (isProcessingTurn (session σ)))
             (suspended σ) (ended σ)).

(** The interval of the [i]-th suspended call fires.  On an empty queue
    nothing happens.  Otherwise the first message is taken and the call runs
    on, before any other event, to its next [await] or to its end; at its
    end, unless [convertToWav] threw, the flag is cleared and
    [processQueueContinuously] is called. *)
Definition tick (i : nat) (σ : State) : State :=
  match suspended σ !! i, responseQueue (session σ) with
  | Some l, message :: queue =>
      let t := handle_message (resume l (sessionAudioParts (session σ))) message in
      if turnComplete t then
        let '(s, outcome) := finishTurn (isProcessingTurn (session σ)) t queue in
        let σ' := mkState s (delete i (suspended σ)) (ended σ ++ [outcome]) in
        match outcome with
        | Finished _ ConvertFailed => σ'
        | _ => processQueueContinuously σ'
        end
      else
        mkState (mkSession queue (audioParts t) (isProcessingTurn (session σ)))
                (<[i := mkLocals (turnText t) (audioMimeType t)]> (suspended σ))
                (ended σ)
  | _, _ => σ
  end.

Inductive Event : Type :=
  | OnMessage : Genai.LiveServerMessage → Event
  | Tick : nat → Event.

Definition step (σ : State) (e : Event) : State :=
  match e with
  | OnMessage message => onmessage message σ
  | Tick i => tick i σ
  end.

Definition run (events : list Event) : State := foldl step initial events.

(** The messages delivered by a run of events, in order. *)
Definition delivered (events : list Event) : list Genai.LiveServerMessage :=
  omap (λ e, match e with OnMessage m => Some m | Tick _ => None end) events.

(** The calls in flight, as outcomes of turns that wait. *)
Definition waiting (σ : State) : list Outcome :=
  (λ l, Waiting (resume l (sessionAudioParts (session σ)))) <$> suspended σ.

End Page.

(** [handleTurn] from the middle of its loop: the variables of the turn are
    [t] and [queue] is still to come.  ([isProcessingTurn] has been set.) *)
Definition handleTurn_from (t : Turn) (queue : list Genai.LiveServerMessage)
    : Session * Outcome :=
  let '(t', queue') := turn_loop t queue in
  if negb (turnComplete t') then (mkSession queue' (audioParts t') true, Waiting t')
  else finishTurn true t' queue'.

(** What the turns of a page come to when the messages [future] are still
    delivered: the outcomes so far, then those of the call in flight and of
    the turns after it, computed on the whole queue at once. *)
Definition page_outlook (σ : Page.State) (future : list Genai.LiveServerMessage)
    : Session * list Outcome :=
  let s := Page.session σ in
  let '(s', outcomes) :=
    match Page.suspended σ with
    | [] =>
        processQueueContinuously
          (mkSession (responseQueue s ++ future) (sessionAudioParts s) (isProcessingTurn s))
    | l :: _ =>
        let '(s1, outcome) :=
          handleTurn_from (Page.resume l (sessionAudioParts s)) (responseQueue s ++ future) in
        let '(s2, outcomes) := processQueueContinuously s1 in
        (s2, outcome :: outcomes)
    end in
  (s', Page.ended σ ++ outcomes).

(** One call of [handleTurn] at most, and no idle page with work left. *)
Definition page_serialized (σ : Page.State) : Prop :=
  (length (Page.suspended σ) ≤ 1)%nat
  ∧ (Page.suspended σ ≠ [] → isProcessingTurn (Page.session σ) = true)
  ∧ (isProcessingTurn (Page.session σ) = false → responseQueue (Page.session σ) = []).

(** * Properties *)

(** Linear arithmetic with division and remainder by constants. *)
Ltac div_lia := zify; Z.to_euclidean_division_equations; lia.

(** ** Bytes and little-endian fields *)

Lemma byte_of_N_to_N (b : byte) : byte_of_N (Byte.to_N b) = b.
Proof.
  unfold byte_of_N. pose proof (Byte.to_N_bounded b).
  rewrite N.mod_small by lia.
  by rewrite Byte.of_to_N.
Qed.

Lemma to_N_byte_of_N (n : N) : Byte.to_N (byte_of_N n) = (n mod 256)%N.
Proof.
  unfold byte_of_N.
  destruct (Byte.of_N (n mod 256)) as [b|] eqn:E.
  - by apply Byte.to_of_N in E.
  - apply Byte.of_N_None_iff in E.
    pose proof (N.mod_upper_bound n 256). lia.
Qed.

Lemma Z_of_byte_of_Z (z : Z) : Z_of_byte (byte_of_Z z) = z mod 256.
Proof.
  unfold Z_of_byte, byte_of_Z. rewrite to_N_byte_of_N.
  pose proof (Z.mod_pos_bound z 256).
  rewrite N.mod_small by lia. lia.
Qed.

Lemma Z_of_byte_range (b : byte) : 0 ≤ Z_of_byte b < 256.
Proof. unfold Z_of_byte. pose proof (Byte.to_N_bounded b). lia. Qed.

Lemma byte_of_Z_of_byte (b : byte) : byte_of_Z (Z_of_byte b) = b.
Proof.
  unfold byte_of_Z. pose proof (Z_of_byte_range b).
  rewrite Z.mod_small by lia. unfold Z_of_byte.
  rewrite N2Z.id. apply byte_of_N_to_N.
Qed.

Lemma byte_of_Z_mod (z : Z) : byte_of_Z (z mod 256) = byte_of_Z z.
Proof. unfold byte_of_Z. by rewrite Z.mod_mod. Qed.

(** ** Base64: [atob] undoes [btoa] *)

Lemma b64val_b64char (n : N) : (n < 64)%N → b64val (b64char n) = Some n.
Proof.
  intros Hn. destruct n as [|p]; [reflexivity|].
  do 6 (destruct p as [p|p|]; try reflexivity); lia.
Qed.

Lemma b64val_Some_char (c : ascii) (v : N) :
  b64val c = Some v → isAsciiWhitespace c = false ∧ Ascii.eqb c "=" = false.
Proof.
  destruct c as [[] [] [] [] [] [] [] []]; vm_compute; intros H;
    first [discriminate H | split; reflexivity].
Qed.

Lemma string_triple_ind (P : string → Prop) :
  P EmptyString →
  (∀ a, P (String a EmptyString)) →
  (∀ a b, P (String a (String b EmptyString))) →
  (∀ a b c s, P s → P (String a (String b (String c s)))) →
  ∀ s, P s.
Proof.
  intros H0 H1 H2 H3. fix IH 1. intros [|a [|b [|c s]]].
  - exact H0.
  - apply H1.
  - apply H2.
  - apply H3, IH.
Qed.

Lemma mapM_b64val_b64char (sx : list N) :
  Forall (λ n, (n < 64)%N) sx → mapM b64val (b64char <$> sx) = Some sx.
Proof.
  intros H. apply mapM_Some. induction H as [|n sx Hn _ IH]; simpl.
  - constructor.
  - constructor; [by apply b64val_b64char | exact IH].
Qed.

(** The characters [btoa] produces: sextets of the input, then padding. *)
Lemma btoa_shape (s : string) :
  ∃ (sx : list N) (pad : list ascii),
    list_ascii_of_string (btoa s) = (b64char <$> sx) ++ pad
    ∧ Forall (λ n, (n < 64)%N) sx
    ∧ (pad = [] ∨ pad = ["="%char] ∨ pad = ["="%char; "="%char])
    ∧ ((length sx + length pad) mod 4 = 0)%nat
    ∧ sextets_to_bytes sx = N_of_ascii <$> list_ascii_of_string s.
Proof.
  induction s as [|a|a b|a b c s IH] using string_triple_ind.
  - exists [], []. simpl. repeat split; auto.
  - pose proof (N_ascii_bounded a) as Ha.
    exists [N_of_ascii a / 4; N_of_ascii a mod 4 * 16]%N, ["="%char; "="%char].
    simpl. repeat split; auto.
    + repeat (constructor; [div_lia|]); constructor.
    + f_equal. div_lia.
  - pose proof (N_ascii_bounded a) as Ha. pose proof (N_ascii_bounded b) as Hb.
    exists [N_of_ascii a / 4; N_of_ascii a mod 4 * 16 + N_of_ascii b / 16;
            N_of_ascii b mod 16 * 4]%N, ["="%char].
    simpl. repeat split; auto.
    + repeat (constructor; [div_lia|]); constructor.
    + f_equal; [div_lia|]. f_equal. div_lia.
  - destruct IH as (sx & pad & Hs & Hsx & Hpad & Hlen & Hbytes).
    pose proof (N_ascii_bounded a) as Ha. pose proof (N_ascii_bounded b) as Hb.
    pose proof (N_ascii_bounded c) as Hc.
    exists ([N_of_ascii a / 4; N_of_ascii a mod 4 * 16 + N_of_ascii b / 16;
             N_of_ascii b mod 16 * 4 + N_of_ascii c / 64;
             N_of_ascii c mod 64]%N ++ sx), pad.
    split; [|split; [|split; [|split]]].
    + cbn [btoa list_ascii_of_string]. rewrite Hs. reflexivity.
    + apply Forall_app. split; [repeat (constructor; [div_lia|]); constructor | exact Hsx].
    + exact Hpad.
    + rewrite length_app. cbn [length]. lia.
    + cbn [app sextets_to_bytes list_ascii_of_string fmap list_fmap].
      rewrite Hbytes. f_equal; [div_lia|]. f_equal; [div_lia|]. f_equal. div_lia.
Qed.

Lemma filter_Forall_id {A} (P : A → Prop) `{∀ x, Decision (P x)} (l : list A) :
  Forall P l → filter P l = l.
Proof.
  induction 1 as [|x l Hx _ IH]; [reflexivity|].
  rewrite filter_cons_True by assumption. by rewrite IH.
Qed.

Lemma drop_trailing_eq_snoc (l : list ascii) :
  drop_trailing_eq (l ++ ["="%char]) = l.
Proof.
  unfold drop_trailing_eq. rewrite reverse_snoc. simpl.
  apply reverse_involutive.
Qed.

Lemma drop_trailing_eq_alphabet (l : list ascii) :
  Forall (λ c, is_Some (b64val c)) l → drop_trailing_eq l = l.
Proof.
  intros Hl. unfold drop_trailing_eq.
  destruct (reverse l) as [|c r] eqn:E; [reflexivity|].
  assert (c ∈ l) as Hc.
  { apply elem_of_reverse. rewrite E. left. }
  rewrite Forall_forall in Hl. destruct (Hl c Hc) as [v Hv].
  apply b64val_Some_char in Hv as [_ ->]. reflexivity.
Qed.

Lemma b64char_alphabet (sx : list N) :
  Forall (λ n, (n < 64)%N) sx → Forall (λ c, is_Some (b64val c)) (b64char <$> sx).
Proof.
  intros H. apply Forall_fmap. eapply Forall_impl; [exact H|].
  intros n Hn. simpl. rewrite b64val_b64char by assumption. by eexists.
Qed.

Lemma strip_padding_btoa (body pad : list ascii) :
  Forall (λ c, is_Some (b64val c)) body →
  (pad = [] ∨ pad = ["="%char] ∨ pad = ["="%char; "="%char]) →
  ((length body + length pad) mod 4 = 0)%nat →
  strip_padding (body ++ pad) = body.
Proof.
  intros Hbody Hpad Hlen. unfold strip_padding.
  rewrite length_app, Hlen. simpl.
  destruct Hpad as [-> | [-> | ->]].
  - rewrite app_nil_r. by rewrite !(drop_trailing_eq_alphabet body).
  - rewrite drop_trailing_eq_snoc. by apply drop_trailing_eq_alphabet.
  - change (body ++ ["="%char; "="%char]) with (body ++ ["="%char] ++ ["="%char]).
    rewrite app_assoc. by rewrite !drop_trailing_eq_snoc.
Qed.

Theorem atob_btoa (s : string) : atob (btoa s) = Some s.
Proof.
  destruct (btoa_shape s) as (sx & pad & Hs & Hsx & Hpad & Hlen & Hbytes).
  pose proof (b64char_alphabet sx Hsx) as Hbody.
  unfold atob. rewrite Hs.
  rewrite filter_Forall_id.
  2:{ apply Forall_app. split.
      - eapply Forall_impl; [exact Hbody|].
        intros c [v Hv]. by apply b64val_Some_char in Hv as [? _].
      - destruct Hpad as [-> | [-> | ->]]; repeat constructor. }
  rewrite <- (length_fmap b64char) in Hlen.
  rewrite strip_padding_btoa by assumption.
  assert ((length (b64char <$> sx) mod 4 =? 1)%nat = false) as ->.
  { apply Nat.eqb_neq.
    assert (length pad ≤ 2)%nat by (destruct Hpad as [-> | [-> | ->]]; simpl; lia).
    div_lia. }
  rewrite mapM_b64val_b64char by assumption. simpl.
  rewrite Hbytes. f_equal.
  rewrite <- list_fmap_compose.
  rewrite <- (string_of_list_ascii_of_string s) at 2. f_equal.
  rewrite <- (list_fmap_id (list_ascii_of_string s)) at 2.
  apply list_fmap_ext. intros i c _. simpl. apply ascii_N_embedding.
Qed.

(** ** The loops over typed arrays *)

Lemma append_assoc (s1 s2 s3 : string) : (s1 +:+ s2) +:+ s3 = s1 +:+ (s2 +:+ s3).
Proof.
  induction s1 as [|c s1 IH]; [reflexivity|].
  exact (f_equal (String c) IH).
Qed.

Lemma append_empty_r (s : string) : s +:+ EmptyString = s.
Proof.
  induction s as [|c s IH]; [reflexivity|].
  exact (f_equal (String c) IH).
Qed.

Lemma binary_string_loop (bytes : list byte) (binary : string) :
  foldl (λ binary b, binary +:+ fromCharCode b) binary bytes
  = binary +:+ string_of_list_byte bytes.
Proof.
  revert binary. induction bytes as [|b bytes IH]; intros binary; simpl.
  - by rewrite append_empty_r.
  - rewrite IH, append_assoc. reflexivity.
Qed.

Lemma arrayBufferToBase64_btoa (buffer : list byte) :
  arrayBufferToBase64 buffer = btoa (string_of_list_byte buffer).
Proof. unfold arrayBufferToBase64. by rewrite binary_string_loop. Qed.

(** Storing [f i] at every index [i] below [m] of an array, in order. *)
Lemma store_loop {A} (f : nat → A) (l : list A) (m : nat) :
  (m ≤ length l)%nat →
  foldl (λ l i, <[i := f i]> l) l (seq 0 m) = (f <$> seq 0 m) ++ drop m l.
Proof.
  induction m as [|m IH]; intros Hm; [reflexivity|].
  rewrite seq_S, foldl_app, fmap_app. simpl.
  rewrite IH by lia.
  destruct (drop m l) as [|x rest] eqn:E.
  { apply (f_equal length) in E. rewrite length_drop in E. simpl in E. lia. }
  rewrite (insert_app_r_alt _ _ m) by (rewrite length_fmap, length_seq; lia).
  rewrite length_fmap, length_seq, Nat.sub_diag. simpl.
  rewrite <- app_assoc. simpl. do 2 f_equal.
  rewrite <- (Nat.add_1_r m), <- drop_drop, E. reflexivity.
Qed.

(** *** Doubles

    Integers up to 2^53 in magnitude are doubles, and so are their sums and
    products that stay in that range and their quotients by 8: there the
    arithmetic of [number] is exact. *)

Lemma round_samples :
  num (2 ^ 53 + 1) = num (2 ^ 53)
  ∧ num (2 ^ 53 + 3) = num (2 ^ 53 + 4)
  ∧ num (10 ^ 23) = num 99999999999999991611392
  ∧ num (2 ^ 1024 - 2 ^ 970 - 1) = num (2 ^ 1024 - 2 ^ 971)
  ∧ num (2 ^ 1024 - 2 ^ 970) = Infinity false
  ∧ num (- 10 ^ 310) = Infinity true
  ∧ round (1 # 10) = Fin (3602879701896397 # 36028797018963968)
  ∧ number_add (round (1 # 10)) (round (2 # 10)) = Fin (1351079888211149 # 4503599627370496)
  ∧ number_div (num 1) (num 3) = Fin (6004799503160661 # 18014398509481984)
  ∧ number_div (num 12) (num 8) = Fin (3 # 2)
  ∧ number_mul (num (2 ^ 53 - 1)) (num 24) = num (3 * 2 ^ 56 - 32)
  ∧ number_mul (num (10 ^ 200)) (num (10 ^ 200)) = Infinity false
  ∧ number_mul (num (10 ^ 310)) (num 0) = NaN.
Proof. repeat split; vm_compute; reflexivity. Qed.

Lemma Qred_inject_Z (z : Z) : Qred (inject_Z z) = inject_Z z.
Proof. apply Qcanon.Qred_identity. simpl. apply Z.gcd_1_r. Qed.

Lemma round_exact (q : Q) : exact_double (Qred q) = true → round q = Fin (Qred q).
Proof. intros H. unfold round. cbv zeta. by rewrite H. Qed.

Lemma exact_double_inject_Z (z : Z) :
  Z.abs z ≤ 2 ^ 53 → exact_double (inject_Z z) = true.
Proof.
  intros H. unfold exact_double, inject_Z. cbn [Qnum Qden is_pow2].
  apply Z.leb_le in H. rewrite H.
  assert ((Z.pos 1 <=? 2 ^ 1074) = true) as -> by (vm_compute; reflexivity).
  reflexivity.
Qed.

(** A rational that is an integer of at most 53 bits rounds to itself. *)
Lemma round_integer (q : Q) (z : Z) :
  (q == inject_Z z)%Q → Z.abs z ≤ 2 ^ 53 → round q = Fin (inject_Z z).
Proof.
  intros Hq Hz.
  assert (Qred q = inject_Z z) as Hred.
  { rewrite (Qred_complete _ _ Hq). apply Qred_inject_Z. }
  rewrite round_exact; rewrite Hred; [reflexivity|].
  by apply exact_double_inject_Z.
Qed.

Lemma num_exact (z : Z) : Z.abs z ≤ 2 ^ 53 → num z = Fin (inject_Z z).
Proof. intros H. unfold num. by apply round_integer. Qed.

(** A number made by [num] or by rounding is never [NaN]. *)
Lemma round_not_NaN (q : Q) : isNaN (round q) = false.
Proof.
  unfold round, nearest_double. cbv zeta.
  repeat match goal with |- context [if ?b then _ else _] => destruct b end;
    reflexivity.
Qed.

Lemma num_not_NaN (z : Z) : isNaN (num z) = false.
Proof. apply round_not_NaN. Qed.

Lemma truncate_inject_Z (z : Z) : truncate (inject_Z z) = z.
Proof. unfold truncate. simpl. apply Z.quot_1_r. Qed.

Lemma ToUint_num (bits z : Z) :
  Z.abs z ≤ 2 ^ 53 → ToUint bits (num z) = z mod 2 ^ bits.
Proof. intros H. rewrite num_exact by exact H. unfold ToUint. by rewrite truncate_inject_Z. Qed.

Lemma number_add_num (a b : Z) :
  Z.abs a ≤ 2 ^ 53 → Z.abs b ≤ 2 ^ 53 → Z.abs (a + b) ≤ 2 ^ 53 →
  number_add (num a) (num b) = num (a + b).
Proof.
  intros Ha Hb Hab. rewrite !num_exact by assumption. unfold number_add.
  apply round_integer; [|exact Hab]. rewrite inject_Z_plus. apply Qeq_refl.
Qed.

Lemma number_mul_num (a b : Z) :
  Z.abs a ≤ 2 ^ 53 → Z.abs b ≤ 2 ^ 53 → Z.abs (a * b) ≤ 2 ^ 53 →
  number_mul (num a) (num b) = num (a * b).
Proof.
  intros Ha Hb Hab. rewrite !num_exact by assumption. unfold number_mul.
  apply round_integer; [|exact Hab]. rewrite inject_Z_mult. apply Qeq_refl.
Qed.

(** A product with zero is zero, or [NaN] when the other factor is [NaN] or
    an infinity. *)
Lemma number_mul_zero (n : number) :
  number_mul n (num 0) = num 0 ∨ number_mul n (num 0) = NaN.
Proof.
  rewrite (num_exact 0) by (vm_compute; discriminate).
  destruct n as [|s|x]; [by right | by right | left].
  unfold number_mul. apply round_integer; [|vm_compute; discriminate].
  unfold Qeq, Qmult, inject_Z. simpl. lia.
Qed.

(** [Qred] divides numerator and denominator by their gcd. *)
Lemma Qred_parts (q : Q) :
  ∃ g, 0 < g ∧ Qnum q = g * Qnum (Qred q) ∧ Z.pos (Qden q) = g * Z.pos (Qden (Qred q)).
Proof.
  destruct q as [n d]. unfold Qred.
  pose proof (Z.ggcd_gcd n (Z.pos d)) as Hg.
  pose proof (Z.ggcd_correct_divisors n (Z.pos d)) as Hc.
  pose proof (Z.gcd_nonneg n (Z.pos d)) as Hnonneg.
  destruct (Z.ggcd n (Z.pos d)) as [g [n' d']]. cbn [fst snd] in *.
  destruct Hc as [Hn Hd]. exists g. cbn [Qnum Qden].
  rewrite <- Hg in Hnonneg. clear Hg.
  assert (0 < g).
  { destruct (Z.eq_dec g 0) as [E | E]; [|lia]. rewrite E in Hd. simpl in Hd. lia. }
  assert (0 < d').
  { destruct (Z.lt_ge_cases 0 d') as [|Hd']; [assumption|].
    pose proof (Z.mul_nonneg_nonpos g d'). lia. }
  rewrite Z2Pos.id by assumption. by repeat split.
Qed.

Lemma truncate_Qred (q : Q) : truncate (Qred q) = truncate q.
Proof.
  destruct (Qred_parts q) as (g & Hg & Hn & Hd).
  unfold truncate. rewrite Hn, Hd.
  symmetry. apply Z.quot_mul_cancel_l; lia.
Qed.

(** An integer of at most 53 bits divided by 8 is a double. *)
Lemma number_div8 (a : Z) :
  Z.abs a ≤ 2 ^ 53 →
  number_div (num a) (num 8) = Fin (Qred (a # 8)).
Proof.
  intros Ha.
  rewrite (num_exact a) by exact Ha.
  rewrite (num_exact 8) by (vm_compute; discriminate).
  unfold number_div. change (is_zero (inject_Z 8)) with false. cbv iota.
  assert (Qdiv (inject_Z a) (inject_Z 8) = (a # 8)%Q) as ->.
  { unfold Qdiv, Qmult, Qinv, inject_Z. cbn [Qnum Qden]. by rewrite Z.mul_1_r. }
  apply round_exact.
  destruct (Qred_parts (a # 8)) as (g & Hg & Hn & Hd). cbn [Qnum Qden] in Hn, Hd.
  unfold exact_double.
  destruct (Qred (a # 8)) as [n' d']. cbn [Qnum Qden] in *.
  assert (Z.abs n' ≤ 2 ^ 53) as Hn' by nia.
  apply Z.leb_le in Hn'. rewrite Hn'.
  assert (Z.pos d' ≤ 8) as Hle by nia.
  assert (d' = 1 ∨ d' = 2 ∨ d' = 3 ∨ d' = 4 ∨ d' = 5 ∨ d' = 6 ∨ d' = 7 ∨ d' = 8)%positive
    as Hcases by lia.
  destruct Hcases as [-> | [-> | [-> | [-> | [-> | [-> | [-> | ->]]]]]]];
    try lia; vm_compute; reflexivity.
Qed.

Lemma ToUint_div8 (bits a : Z) :
  Z.abs a ≤ 2 ^ 53 →
  ToUint bits (number_div (num a) (num 8)) = (a ÷ 8) mod 2 ^ bits.
Proof.
  intros Ha. rewrite number_div8 by exact Ha.
  unfold ToUint. by rewrite truncate_Qred.
Qed.

(** Zero bits per sample or zero channels give zero rates, whatever the
    other factor is. *)
Lemma ToUint_zero_div8 (bits : Z) (n : number) :
  ToUint bits (number_div (number_mul n (num 0)) (num 8)) = 0.
Proof.
  destruct (number_mul_zero n) as [-> | ->].
  - rewrite ToUint_div8 by (vm_compute; discriminate). reflexivity.
  - reflexivity.
Qed.

Lemma byte_of_charCode (c : ascii) : byte_of_Z (charCode c) = byte_of_ascii c.
Proof.
  unfold byte_of_Z, byte_of_N, charCode.
  pose proof (N_ascii_bounded c).
  rewrite Z.mod_small by lia. rewrite N2Z.id, N.mod_small by lia.
  by rewrite <- byte_of_ascii_via_N.
Qed.

Lemma charCodeAt_loop (s : string) :
  (λ i, byte_of_Z (ToUint 8 (charCodeAt s i))) <$> seq 0 (String.length s)
  = list_byte_of_string s.
Proof.
  induction s as [|c s IH]; [reflexivity|].
  change (list_byte_of_string (String c s))
    with (byte_of_ascii c :: list_byte_of_string s).
  rewrite <- IH, <- byte_of_charCode.
  cbn [String.length seq]. rewrite <- fmap_S_seq, fmap_cons, <- list_fmap_compose.
  f_equal.
  unfold charCodeAt. cbn [String.get].
  rewrite ToUint_num
    by (unfold charCode; pose proof (N_ascii_bounded c);
        change (2 ^ 53) with 9007199254740992; lia).
  change (2 ^ 8) with 256. apply byte_of_Z_mod.
Qed.

Lemma base64ToUint8Array_atob (base64 binaryString : string) :
  atob base64 = Some binaryString →
  base64ToUint8Array base64 = Some (list_byte_of_string binaryString).
Proof.
  intros H. unfold base64ToUint8Array. rewrite H. simpl. f_equal.
  rewrite store_loop by (rewrite length_replicate; lia).
  rewrite drop_replicate, Nat.sub_diag, app_nil_r.
  apply charCodeAt_loop.
Qed.

Lemma total_length_loop (arrays : list (list byte)) (acc : nat) :
  foldl (λ acc val, acc + length val)%nat acc arrays
  = (acc + length (mjoin arrays))%nat.
Proof.
  revert acc. induction arrays as [|arr arrays IH]; intros acc; simpl.
  - lia.
  - rewrite IH, length_app. lia.
Qed.

Lemma concatUint8Arrays_loop_spec (arrays : list (list byte)) (done rest : list byte) :
  length rest = length (mjoin arrays) →
  concatUint8Arrays_loop arrays (done ++ rest) (length done)
  = Some (done ++ mjoin arrays).
Proof.
  revert done rest. induction arrays as [|arr arrays IH]; intros done rest Hlen.
  - simpl in *. destruct rest; [reflexivity | discriminate].
  - simpl in Hlen. rewrite length_app in Hlen.
    cbn [concatUint8Arrays_loop]. unfold TypedArray_set.
    rewrite decide_True by (rewrite length_app; lia). simpl.
    rewrite <- (Nat.add_0_r (length done)) at 1.
    rewrite list_inserts_app_r.
    rewrite <- (take_drop (length arr) rest).
    rewrite list_inserts_0_r by (rewrite length_take; lia).
    rewrite app_assoc, <- length_app.
    rewrite IH by (rewrite length_drop; lia).
    by rewrite <- app_assoc.
Qed.

(** [concatUint8Arrays] never throws and returns the arrays end to end. *)
Theorem concatUint8Arrays_spec (arrays : list (list byte)) :
  concatUint8Arrays arrays = Some (mjoin arrays).
Proof.
  unfold concatUint8Arrays. rewrite total_length_loop. simpl.
  apply (concatUint8Arrays_loop_spec arrays []).
  apply length_replicate.
Qed.

(** C10. For every byte buffer [b], decoding with [base64ToUint8Array] what
    [arrayBufferToBase64] encoded returns, without error, exactly the bytes
    of [b]: audio bytes survive the transport encoding unchanged. *)
Theorem base64_roundtrip (b : list byte) :
  base64ToUint8Array (arrayBufferToBase64 b) = Some b.
Proof.
  rewrite arrayBufferToBase64_btoa.
  rewrite (base64ToUint8Array_atob _ _ (atob_btoa _)).
  by rewrite list_byte_of_string_of_list_byte.
Qed.

(** ** The header *)

Lemma byte_of_Z_congr (x y : Z) : x mod 256 = y mod 256 → byte_of_Z x = byte_of_Z y.
Proof. intros H. rewrite <- (byte_of_Z_mod x), <- (byte_of_Z_mod y). by rewrite H. Qed.

Ltac bytes_eq :=
  repeat match goal with
         | |- _ :: _ = _ :: _ => f_equal
         | |- byte_of_Z _ = byte_of_Z _ => apply byte_of_Z_congr; div_lia
         end.

Lemma le_bytes_4 (v : Z) : le_bytes 4 v = u32le v.
Proof.
  unfold u32le. cbn [le_bytes].
  bytes_eq.
Qed.

Lemma le_bytes_2 (v : Z) : le_bytes 2 v = u16le v.
Proof. reflexivity. Qed.

Lemma le_bytes_1 (v : Z) : le_bytes 1 v = [byte_of_Z v].
Proof. reflexivity. Qed.

Lemma u32le_mod (v : Z) : u32le (v mod 2 ^ 32) = u32le v.
Proof.
  unfold u32le. change (2 ^ 32) with 4294967296.
  bytes_eq.
Qed.

Lemma u16le_mod (v : Z) : u16le (v mod 2 ^ 16) = u16le v.
Proof.
  unfold u16le. change (2 ^ 16) with 65536.
  bytes_eq.
Qed.

Lemma read_le_u32le (v : Z) : read_le (u32le v) = v mod 2 ^ 32.
Proof.
  unfold read_le, u32le. cbn [foldr]. rewrite !Z_of_byte_of_Z.
  change (2 ^ 32) with 4294967296. div_lia.
Qed.

Lemma read_le_u16le (v : Z) : read_le (u16le v) = v mod 2 ^ 16.
Proof.
  unfold read_le, u16le. cbn [foldr]. rewrite !Z_of_byte_of_Z.
  change (2 ^ 16) with 65536. div_lia.
Qed.

Lemma setUint_Some (size : nat) (view : list byte) (byteOffset : nat)
    (value : number) (littleEndian : bool) :
  (byteOffset + size ≤ length view)%nat →
  setUint size view byteOffset value littleEndian
  = Some (list_inserts byteOffset
            (if littleEndian then le_bytes size (ToUint (8 * Z.of_nat size) value)
             else reverse (le_bytes size (ToUint (8 * Z.of_nat size) value))) view).
Proof. intros H. unfold setUint. by rewrite decide_True. Qed.

(** The header for arbitrary numbers: every stored field goes through
    [ToUint], and no store is out of range. *)
Lemma createWavHeader_fields (dataLength : number) (options : WavConversionOptions) :
  createWavHeader dataLength options
  = Some (header_layout
            (ToUint 32 (number_add (num 36) dataLength))
            (ToUint 16 (numChannels options))
            (ToUint 32 (sampleRate options))
            (ToUint 32 (number_div (number_mul (number_mul (sampleRate options)
               (numChannels options)) (bitsPerSample options)) (num 8)))
            (ToUint 16 (number_div (number_mul (numChannels options)
               (bitsPerSample options)) (num 8)))
            (ToUint 16 (bitsPerSample options))
            (ToUint 32 dataLength)).
Proof.
  unfold createWavHeader, setUint8, setUint16, setUint32.
  repeat (rewrite setUint_Some by (rewrite ?length_inserts, length_replicate; simpl; lia);
          cbn [mbind option_bind]).
  f_equal.
  change (8 * Z.of_nat 4) with 32. change (8 * Z.of_nat 2) with 16.
  change (8 * Z.of_nat 1) with 8.
  rewrite !le_bytes_4, !le_bytes_2, !le_bytes_1.
  reflexivity.
Qed.

Lemma header_layout_length (chunkSize channels rate byteRate blockAlign bits dataSize : Z) :
  length (header_layout chunkSize channels rate byteRate blockAlign bits dataSize) = 44%nat.
Proof. reflexivity. Qed.

Lemma createWavHeader_total (dataLength : number) (options : WavConversionOptions) :
  ∃ header, createWavHeader dataLength options = Some header ∧ length header = 44%nat.
Proof. eexists. split; [apply createWavHeader_fields | apply header_layout_length]. Qed.

Lemma getUint_header (cs ch r br ba b d : Z) (data : list byte) :
  let wav := header_layout cs ch r br ba b d ++ data in
  getUint 2 wav 22 = ch mod 2 ^ 16
  ∧ getUint 4 wav 24 = r mod 2 ^ 32
  ∧ getUint 2 wav 34 = b mod 2 ^ 16
  ∧ getUint 4 wav 40 = d mod 2 ^ 32.
Proof.
  repeat split.
  - exact (read_le_u16le ch).
  - exact (read_le_u32le r).
  - exact (read_le_u16le b).
  - exact (read_le_u32le d).
Qed.

(** [convertToWav] on chunks that decode: the header of the parsed
    descriptor and of the total length, then the chunks end to end. *)
Lemma convertToWav_decoded (rawData : list string) (mimeType : string)
    (chunks : list (list byte)) :
  mapM base64ToUint8Array rawData = Some chunks →
  convertToWav rawData mimeType
  = (header ← createWavHeader (num (Z.of_nat (length (mjoin chunks))))
                              (parseMimeType mimeType);
     Some (header ++ mjoin chunks)).
Proof.
  intros Hdec. unfold convertToWav. rewrite Hdec. cbn [mbind option_bind].
  rewrite concatUint8Arrays_spec. cbn [mbind option_bind].
  destruct (createWavHeader_total (num (Z.of_nat (length (mjoin chunks))))
              (parseMimeType mimeType)) as (header & -> & _).
  cbn [mbind option_bind]. rewrite concatUint8Arrays_spec.
  simpl. by rewrite app_nil_r.
Qed.

(** ** The turn loop *)

Section handle_part.
Context (t : Turn) (part : Genai.Part).

Lemma handle_part_turnComplete :
  turnComplete (handle_part t part) = turnComplete t.
Proof.
  unfold handle_part.
  destruct (truthy_opt (Genai.text part)), (Genai.inlineData part) as [[[d|] m]|];
    try reflexivity.
  all: simpl; destruct (truthy d); [|reflexivity].
  all: destruct (truthy _); reflexivity.
Qed.

Lemma handle_part_turnText :
  turnText (handle_part t part)
  = turnText t +:+ default EmptyString (Genai.text part).
Proof.
  assert (turnText (if truthy_opt (Genai.text part)
                    then mkTurn (turnComplete t)
                           (turnText t +:+ default EmptyString (Genai.text part))
                           (audioMimeType t) (audioParts t)
                    else t)
          = turnText t +:+ default EmptyString (Genai.text part)) as Htext.
  { destruct (Genai.text part) as [[|c s]|]; simpl;
      by rewrite ?append_empty_r. }
  unfold handle_part.
  destruct (Genai.inlineData part) as [[[d|] m]|]; try exact Htext.
  simpl. destruct (truthy d); [|exact Htext].
  destruct (negb _); exact Htext.
Qed.

Lemma handle_part_audioParts :
  audioParts (handle_part t part)
  = audioParts t ++ (if carries_audio part
                     then [default EmptyString (Genai.inlineData part ≫= Genai.data)]
                     else []).
Proof.
  unfold handle_part, carries_audio.
  destruct (truthy_opt (Genai.text part)), (Genai.inlineData part) as [[[d|] m]|];
    simpl; rewrite ?app_nil_r; try reflexivity.
  all: destruct (truthy d); simpl; rewrite ?app_nil_r; try reflexivity.
  all: destruct (truthy (audioMimeType t)); reflexivity.
Qed.

Lemma handle_part_audioMimeType :
  audioMimeType (handle_part t part)
  = if truthy (audioMimeType t) then audioMimeType t
    else if carries_audio part
         then or_empty (Genai.inlineData part ≫= Genai.mimeType)
         else audioMimeType t.
Proof.
  unfold handle_part, carries_audio.
  destruct (truthy_opt (Genai.text part)), (Genai.inlineData part) as [[[d|] m]|];
    simpl; try (destruct (truthy (audioMimeType t)); reflexivity).
  all: destruct (truthy d); simpl;
    destruct (truthy (audioMimeType t)); reflexivity.
Qed.
End handle_part.

Lemma texts_app (ps qs : list Genai.Part) : texts (ps ++ qs) = texts ps +:+ texts qs.
Proof.
  induction ps as [|p ps IH]; [reflexivity|].
  cbn [app texts foldr]. fold (texts (ps ++ qs)). fold (texts ps).
  by rewrite IH, append_assoc.
Qed.

Lemma audio_datas_cons (p : Genai.Part) (ps : list Genai.Part) :
  audio_datas (p :: ps)
  = (if carries_audio p
     then [default EmptyString (Genai.inlineData p ≫= Genai.data)] else [])
    ++ audio_datas ps.
Proof.
  unfold audio_datas. destruct (carries_audio p) eqn:E.
  - by rewrite filter_cons_True.
  - rewrite filter_cons_False; [reflexivity | congruence].
Qed.

Lemma audio_mimeTypes_cons (p : Genai.Part) (ps : list Genai.Part) :
  audio_mimeTypes (p :: ps)
  = (if carries_audio p
     then [or_empty (Genai.inlineData p ≫= Genai.mimeType)] else [])
    ++ audio_mimeTypes ps.
Proof.
  unfold audio_mimeTypes. destruct (carries_audio p) eqn:E.
  - by rewrite filter_cons_True.
  - rewrite filter_cons_False; [reflexivity | congruence].
Qed.

Lemma first_truthy_cons (s : string) (l : list string) :
  first_truthy (s :: l) = if truthy s then s else first_truthy l.
Proof.
  unfold first_truthy. destruct (truthy s) eqn:E.
  - by rewrite filter_cons_True.
  - rewrite filter_cons_False; [reflexivity | congruence].
Qed.

Section parts_loop.
(** Invariants of the [for (const part of ...)] loop. *)

Lemma parts_turnComplete (ps : list Genai.Part) (t : Turn) :
  turnComplete (foldl handle_part t ps) = turnComplete t.
Proof.
  revert t. induction ps as [|p ps IH]; intros t; [reflexivity|].
  simpl. by rewrite IH, handle_part_turnComplete.
Qed.

Lemma parts_turnText (ps : list Genai.Part) (t : Turn) :
  turnText (foldl handle_part t ps) = turnText t +:+ texts ps.
Proof.
  revert t. induction ps as [|p ps IH]; intros t.
  - simpl. by rewrite append_empty_r.
  - cbn [foldl]. rewrite IH, handle_part_turnText, append_assoc. reflexivity.
Qed.

Lemma parts_audioParts (ps : list Genai.Part) (t : Turn) :
  audioParts (foldl handle_part t ps) = audioParts t ++ audio_datas ps.
Proof.
  revert t. induction ps as [|p ps IH]; intros t.
  - simpl. by rewrite app_nil_r.
  - cbn [foldl]. rewrite IH, handle_part_audioParts, audio_datas_cons.
    by rewrite app_assoc.
Qed.

Lemma parts_audioMimeType (ps : list Genai.Part) (t : Turn) :
  audioMimeType (foldl handle_part t ps)
  = first_truthy (audioMimeType t :: audio_mimeTypes ps).
Proof.
  revert t. induction ps as [|p ps IH]; intros t.
  - rewrite first_truthy_cons. simpl.
    by destruct (audioMimeType t).
  - cbn [foldl]. rewrite IH, handle_part_audioMimeType, audio_mimeTypes_cons.
    rewrite !first_truthy_cons.
    destruct (truthy (audioMimeType t)) eqn:E; [by rewrite E|].
    destruct (carries_audio p); simpl.
    + by rewrite first_truthy_cons.
    + by rewrite E.
Qed.
End parts_loop.

Lemma handle_message_parts (t : Turn) (m : Genai.LiveServerMessage) :
  let t' := foldl handle_part t (default [] (message_parts m)) in
  handle_message t m
  = if message_turnComplete m
    then mkTurn true (turnText t') (audioMimeType t') (audioParts t')
    else t'.
Proof. unfold handle_message. by destruct (message_parts m). Qed.

Lemma handle_message_turnComplete (t : Turn) (m : Genai.LiveServerMessage) :
  turnComplete (handle_message t m) = turnComplete t || message_turnComplete m.
Proof.
  rewrite handle_message_parts. simpl.
  destruct (message_turnComplete m); simpl.
  - by rewrite orb_true_r.
  - by rewrite parts_turnComplete, orb_false_r.
Qed.

Lemma all_parts_cons (m : Genai.LiveServerMessage) (msgs : list Genai.LiveServerMessage) :
  all_parts (m :: msgs) = default [] (message_parts m) ++ all_parts msgs.
Proof. reflexivity. Qed.

Lemma all_parts_app (ms ns : list Genai.LiveServerMessage) :
  all_parts (ms ++ ns) = all_parts ms ++ all_parts ns.
Proof. unfold all_parts. by rewrite fmap_app, join_app. Qed.

Section messages_loop.
(** What a run of dequeued messages does to the variables of the turn. *)

Lemma messages_turnText (msgs : list Genai.LiveServerMessage) (t : Turn) :
  turnText (foldl handle_message t msgs) = turnText t +:+ texts (all_parts msgs).
Proof.
  revert t. induction msgs as [|m msgs IH]; intros t.
  - simpl. by rewrite append_empty_r.
  - cbn [foldl]. rewrite IH, all_parts_cons, texts_app, <- append_assoc.
    f_equal. rewrite handle_message_parts. simpl.
    destruct (message_turnComplete m); simpl; apply parts_turnText.
Qed.

Lemma messages_audioParts (msgs : list Genai.LiveServerMessage) (t : Turn) :
  audioParts (foldl handle_message t msgs)
  = audioParts t ++ audio_datas (all_parts msgs).
Proof.
  revert t. induction msgs as [|m msgs IH]; intros t.
  - simpl. by rewrite app_nil_r.
  - cbn [foldl]. rewrite IH, all_parts_cons.
    unfold audio_datas at 2. rewrite filter_app, fmap_app.
    fold (audio_datas (all_parts msgs)).
    fold (audio_datas (default [] (message_parts m))).
    rewrite app_assoc. f_equal.
    rewrite handle_message_parts. simpl.
    destruct (message_turnComplete m); simpl; apply parts_audioParts.
Qed.

Lemma first_truthy_app (s : string) (k l : list string) :
  first_truthy (first_truthy (s :: k) :: l) = first_truthy (s :: k ++ l).
Proof.
  revert s. induction k as [|x k IH]; intros s.
  - rewrite (first_truthy_cons s []). rewrite !first_truthy_cons.
    destruct (truthy s) eqn:E; [by rewrite E|].
    reflexivity.
  - rewrite (first_truthy_cons s (x :: k)). cbn [app].
    rewrite (first_truthy_cons s (x :: k ++ l)).
    destruct (truthy s) eqn:E; [|apply IH].
    by rewrite first_truthy_cons, E.
Qed.

Lemma messages_audioMimeType (msgs : list Genai.LiveServerMessage) (t : Turn) :
  audioMimeType (foldl handle_message t msgs)
  = first_truthy (audioMimeType t :: audio_mimeTypes (all_parts msgs)).
Proof.
  revert t. induction msgs as [|m msgs IH]; intros t.
  - rewrite first_truthy_cons. simpl. by destruct (audioMimeType t).
  - cbn [foldl]. rewrite IH, all_parts_cons.
    unfold audio_mimeTypes at 2. rewrite filter_app, fmap_app.
    fold (audio_mimeTypes (all_parts msgs)).
    fold (audio_mimeTypes (default [] (message_parts m))).
    rewrite <- first_truthy_app. f_equal. f_equal.
    rewrite handle_message_parts. simpl.
    destruct (message_turnComplete m); simpl; apply parts_audioMimeType.
Qed.
End messages_loop.

Lemma turn_loop_done (t : Turn) (queue : list Genai.LiveServerMessage) :
  turnComplete t = true → turn_loop t queue = (t, queue).
Proof. intros H. destruct queue; simpl; by rewrite H. Qed.

Lemma turn_loop_cons (t : Turn) (m : Genai.LiveServerMessage)
    (queue : list Genai.LiveServerMessage) :
  turnComplete t = false →
  turn_loop t (m :: queue) = turn_loop (handle_message t m) queue.
Proof. intros H. simpl. by rewrite H. Qed.

(** Messages without the flag are all consumed and leave the loop waiting. *)
Lemma turn_loop_waiting (msgs : list Genai.LiveServerMessage) (t : Turn) :
  turnComplete t = false →
  Forall (λ m, message_turnComplete m = false) msgs →
  turn_loop t msgs = (foldl handle_message t msgs, [])
  ∧ turnComplete (foldl handle_message t msgs) = false.
Proof.
  intros Ht Hmsgs. revert t Ht.
  induction Hmsgs as [|m msgs Hm _ IH]; intros t Ht.
  - simpl. by rewrite Ht.
  - rewrite turn_loop_cons by assumption. cbn [foldl]. apply IH.
    by rewrite handle_message_turnComplete, Ht, Hm.
Qed.

(** The loop stops right after the first message that carries the flag. *)
Lemma turn_loop_complete (pre : list Genai.LiveServerMessage)
    (last : Genai.LiveServerMessage) (post : list Genai.LiveServerMessage) (t : Turn) :
  turnComplete t = false →
  Forall (λ m, message_turnComplete m = false) pre →
  message_turnComplete last = true →
  turn_loop t (pre ++ last :: post) = (foldl handle_message t (pre ++ [last]), post)
  ∧ turnComplete (foldl handle_message t (pre ++ [last])) = true.
Proof.
  intros Ht Hpre Hlast. revert t Ht.
  induction Hpre as [|m pre Hm _ IH]; intros t Ht.
  - cbn [app foldl]. rewrite turn_loop_cons by assumption.
    assert (turnComplete (handle_message t last) = true) as Hdone.
    { by rewrite handle_message_turnComplete, Hlast, orb_true_r. }
    by rewrite turn_loop_done.
  - cbn [app foldl]. rewrite turn_loop_cons by assumption. apply IH.
    by rewrite handle_message_turnComplete, Ht, Hm.
Qed.

(** A queue either has no flagged message or splits at the first one. *)
Lemma first_complete_split (msgs : list Genai.LiveServerMessage) :
  Forall (λ m, message_turnComplete m = false) msgs
  ∨ ∃ pre last post,
      msgs = pre ++ last :: post
      ∧ Forall (λ m, message_turnComplete m = false) pre
      ∧ message_turnComplete last = true.
Proof.
  induction msgs as [|m msgs IH]; [by left|].
  destruct (message_turnComplete m) eqn:Hm.
  - right. exists [], m, msgs. by repeat split.
  - destruct IH as [IH | (pre & last & post & -> & Hpre & Hlast)].
    + left. by constructor.
    + right. exists (m :: pre), last, post. repeat split; [|done].
      by constructor.
Qed.

(** What [handleTurn] returns once the turn completes, by the two tests of
    [if (audioParts.length > 0 && audioMimeType)]. *)
Lemma handleTurn_complete (pre : list Genai.LiveServerMessage)
    (last : Genai.LiveServerMessage) (post : list Genai.LiveServerMessage)
    (parts0 : list string) (busy : bool) :
  Forall (λ m, message_turnComplete m = false) pre →
  message_turnComplete last = true →
  let t := foldl handle_message (initial_turn parts0) (pre ++ [last]) in
  handleTurn (mkSession (pre ++ last :: post) parts0 busy)
  = if (0 <? length (audioParts t))%nat && truthy (audioMimeType t) then
      match convertToWav (audioParts t) (audioMimeType t) with
      | Some wavData => (mkSession post [] false, Finished (turnText t) (Played wavData))
      | None => (mkSession post (audioParts t) true, Finished (turnText t) ConvertFailed)
      end
    else (mkSession post (audioParts t) false, Finished (turnText t) NoAudio).
Proof.
  intros Hpre Hlast t. unfold handleTurn. cbn [responseQueue sessionAudioParts].
  destruct (turn_loop_complete pre last post (initial_turn parts0) eq_refl Hpre Hlast)
    as [-> Hdone].
  fold t. fold t in Hdone. by rewrite Hdone.
Qed.

Lemma handleTurn_waiting (msgs : list Genai.LiveServerMessage)
    (parts0 : list string) (busy : bool) :
  Forall (λ m, message_turnComplete m = false) msgs →
  let t := foldl handle_message (initial_turn parts0) msgs in
  handleTurn (mkSession msgs parts0 busy)
  = (mkSession [] (audioParts t) true, Waiting t).
Proof.
  intros Hmsgs t. unfold handleTurn. cbn [responseQueue sessionAudioParts].
  destruct (turn_loop_waiting msgs (initial_turn parts0) eq_refl Hmsgs) as [-> Hwait].
  fold t. fold t in Hwait. by rewrite Hwait.
Qed.

(** A turn that ends without an audio format leaves its chunks, and those it
    inherited, in [audioParts]. *)
Lemma silent_turn_keeps_audioParts (pre : list Genai.LiveServerMessage)
    (last : Genai.LiveServerMessage) (post : list Genai.LiveServerMessage)
    (parts0 : list string) (busy : bool) :
  Forall (λ m, message_turnComplete m = false) pre →
  message_turnComplete last = true →
  first_truthy (audio_mimeTypes (all_parts (pre ++ [last]))) = EmptyString →
  handleTurn (mkSession (pre ++ last :: post) parts0 busy)
  = (mkSession post (parts0 ++ audio_datas (all_parts (pre ++ [last]))) false,
     Finished (texts (all_parts (pre ++ [last]))) NoAudio).
Proof.
  intros Hpre Hlast Hformat.
  rewrite (handleTurn_complete pre last post parts0 busy Hpre Hlast).
  rewrite messages_audioMimeType, messages_audioParts, messages_turnText.
  cbn [initial_turn audioMimeType audioParts turnText].
  rewrite first_truthy_cons. cbn [truthy]. rewrite Hformat. cbn [truthy].
  by rewrite andb_false_r.
Qed.

Lemma turn_loop_queue (queue : list Genai.LiveServerMessage) (t : Turn) :
  (length (turn_loop t queue).2 ≤ length queue)%nat.
Proof.
  revert t. induction queue as [|m queue IH]; intros t; simpl.
  - by destruct (turnComplete t).
  - destruct (turnComplete t); simpl; [lia|].
    specialize (IH (handle_message t m)). lia.
Qed.

(** Every turn takes at least one message off a queue that has one. *)
Lemma handleTurn_dequeues (s : Session) :
  responseQueue s ≠ [] →
  (length (responseQueue (handleTurn s).1) < length (responseQueue s))%nat.
Proof.
  intros Hqueue. unfold handleTurn.
  destruct (responseQueue s) as [|m queue]; [done|].
  rewrite turn_loop_cons by reflexivity.
  pose proof (turn_loop_queue queue (handle_message (initial_turn (sessionAudioParts s)) m)) as Hlen.
  destruct (turn_loop _ queue) as [t queue'].
  cbn [snd] in Hlen.
  destruct (negb (turnComplete t)); [simpl; lia|].
  destruct (_ && _); [destruct (convertToWav _ _)|]; simpl; lia.
Qed.

(** The chain of turns is not cut short by its fuel: it ends on an empty
    queue or on a turn that has not returned. *)
Lemma processQueue_fuel (fuel : nat) (s : Session) :
  (length (responseQueue s) ≤ fuel)%nat →
  responseQueue (processQueue fuel s).1 = []
  ∨ isProcessingTurn (processQueue fuel s).1 = true.
Proof.
  revert s. induction fuel as [|fuel IH]; intros s Hfuel.
  - left. simpl. destruct (responseQueue s); [reflexivity | simpl in Hfuel; lia].
  - cbn [processQueue].
    destruct (responseQueue s) as [|m queue] eqn:Hqueue; [by left|].
    destruct (isProcessingTurn s) eqn:Hbusy; [by right|].
    pose proof (handleTurn_dequeues s) as Hlt.
    rewrite Hqueue in Hlt. specialize (Hlt ltac:(done)).
    destruct (handleTurn s) as [s' outcome]. cbn [fst] in Hlt.
    specialize (IH s'). simpl in Hfuel, Hlt.
    destruct (processQueue fuel s') as [s'' outcomes]. cbn [fst] in *.
    apply IH. lia.
Qed.

(** ** MIME type parsing *)

Lemma parseMimeType_numChannels (mimeType : string) :
  numChannels (parseMimeType mimeType) = num 1.
Proof. reflexivity. Qed.

(** The [isNaN] guard keeps [bitsPerSample] a number. *)
Lemma parseMimeType_bitsPerSample (mimeType : string) :
  isNaN (bitsPerSample (parseMimeType mimeType)) = false.
Proof.
  unfold parseMimeType. cbn [bitsPerSample].
  destruct (_ && _); [|reflexivity].
  destruct (isNaN (parseInt10 _)) eqn:E; simpl; [reflexivity | exact E].
Qed.

(** Without a [rate] key among the parameters the default rate stays. *)
Lemma parseMimeType_default_rate (mimeType : string) :
  Forall (λ param, (trim <$> split "=" param) !! 0%nat ≠ Some "rate"%string)
         (trim <$> split ";" mimeType) →
  sampleRate (parseMimeType mimeType) = num 24000.
Proof.
  intros Hparams. unfold parseMimeType. cbn [sampleRate].
  generalize (num 24000).
  induction Hparams as [|param params Hkey _ IH]; intros rate.
  - reflexivity.
  - cbn [foldl]. rewrite IH. unfold parseMimeType_param.
    by rewrite bool_decide_false.
Qed.

(** * The properties of the specification *)

(** C1. For every sequence of chunks that decode to the byte sequences
    [chunks] (empty or not) and every [mimeType], [convertToWav] returns the
    44-byte header that [createWavHeader] computes from the parsed descriptor
    and the total decoded length, followed immediately by the decoded chunks
    in the order given, and nothing else: its length is 44 plus the sum of
    the chunk lengths. *)
Theorem convertToWav_header_then_chunks (rawData : list string) (mimeType : string)
    (chunks : list (list byte)) :
  mapM base64ToUint8Array rawData = Some chunks →
  ∃ header,
    createWavHeader (num (Z.of_nat (length (mjoin chunks)))) (parseMimeType mimeType)
      = Some header
    ∧ length header = 44%nat
    ∧ convertToWav rawData mimeType = Some (header ++ mjoin chunks)
    ∧ length (header ++ mjoin chunks) = (44 + sum_list (length <$> chunks))%nat.
Proof.
  intros Hdec.
  destruct (createWavHeader_total (num (Z.of_nat (length (mjoin chunks))))
              (parseMimeType mimeType)) as (header & Hheader & Hlen).
  exists header. repeat split; [exact Hheader | exact Hlen | |].
  - rewrite (convertToWav_decoded _ _ _ Hdec), Hheader. reflexivity.
  - rewrite length_app, Hlen, length_join. reflexivity.
Qed.

Lemma convertToWav_header_then_chunks_witness :
  ∃ header,
    createWavHeader (num 4) (parseMimeType "audio/L8;rate=8000") = Some header
    ∧ length header = 44%nat
    ∧ convertToWav ["QUI="; "Q0Q="]%string "audio/L8;rate=8000"
      = Some (header ++ list_byte_of_string "ABCD")
    ∧ length (header ++ list_byte_of_string "ABCD") = 48%nat.
Proof.
  exact (convertToWav_header_then_chunks ["QUI="; "Q0Q="]%string "audio/L8;rate=8000"
           [list_byte_of_string "AB"; list_byte_of_string "CD"] eq_refl).
Defined.

(** C2 as stated fails where a product of the fields is not a double: at
    sample rate 2^53 - 1 with one channel and 24 bits, sampleRate * channels
    * bits is 3 * 2^56 - 24, which is rounded to 3 * 2^56 - 32; the byte
    rate stored at offset 28 is fc ff ff ff, where sampleRate * channels *
    bits / 8 ends in fd ff ff ff. *)
Lemma byteRate_is_rounded :
  let rate := 9007199254740991 in
  let options := {| numChannels := num 1; sampleRate := num rate; bitsPerSample := num 24 |} in
  parseMimeType "audio/L24;rate=9007199254740991" = options
  ∧ number_mul (number_mul (num rate) (num 1)) (num 24) = num (rate * 1 * 24 - 8)
  ∧ (∃ header,
       createWavHeader (num 2) options = Some header
       ∧ take 4 (drop 28 header) = [xfc; xff; xff; xff]
       ∧ u32le (rate * 1 * 24 ÷ 8) = [xfd; xff; xff; xff]
       ∧ header ≠ header_layout (36 + 2) 1 rate (rate * 1 * 24 ÷ 8) (1 * 24 ÷ 8) 24 2)
  ∧ (∃ wav,
       convertToWav ["QUI="%string] "audio/L24;rate=9007199254740991" = Some wav
       ∧ getUint 4 wav 28 = 4294967292
       ∧ (rate * 1 * 24 ÷ 8) mod 2 ^ 32 = 4294967293).
Proof.
  cbv zeta. split; [vm_compute; reflexivity|]. split; [vm_compute; reflexivity|]. split.
  - eexists. split; [vm_compute; reflexivity|].
    split; [reflexivity|]. split; [vm_compute; reflexivity|].
    vm_compute. discriminate.
  - eexists. split; [vm_compute; reflexivity|].
    split; vm_compute; reflexivity.
Qed.

(** C2, amended.  For all integers dataLength, channels, sampleRate and
    bits such that they, 36 + dataLength and the products sampleRate *
    channels, sampleRate * channels * bits and channels * bits are at most
    2^53 in magnitude, the header of [createWavHeader] is the 44 bytes of
    the layout: "RIFF", uint32 36 + dataLength, "WAVE", "fmt ", uint32 16,
    uint16 1, uint16 channels, uint32 sampleRate, uint32 byteRate =
    sampleRate * channels * bits / 8, uint16 blockAlign = channels * bits /
    8, uint16 bits, "data", uint32 dataLength, all little-endian, a quotient
    truncated toward zero and every field reduced modulo 2^16 or 2^32
    ([u16le] and [u32le] read back as the value modulo 2^16 and 2^32).  In
    particular "audio/L16;rate=16000" with the two data bytes "AB" gives
    sampleRate 16000, 16 bits, 1 channel, data length 2 and a WAV of 46
    bytes, also through [handleTurn]. *)
Theorem createWavHeader_layout (dataLength channels rate bits : Z) :
  Forall (λ z, Z.abs z ≤ 2 ^ 53)
         [dataLength; 36 + dataLength; channels; rate; bits;
          rate * channels; rate * channels * bits; channels * bits] →
  createWavHeader (num dataLength)
    {| numChannels := num channels; sampleRate := num rate; bitsPerSample := num bits |}
  = Some (header_layout (36 + dataLength) channels rate
            (rate * channels * bits ÷ 8) (channels * bits ÷ 8) bits dataLength)
  ∧ (∀ v, read_le (u16le v) = v mod 2 ^ 16)
  ∧ (∀ v, read_le (u32le v) = v mod 2 ^ 32)
  ∧ parseMimeType "audio/L16;rate=16000"
    = {| numChannels := num 1; sampleRate := num 16000; bitsPerSample := num 16 |}
  ∧ convertToWav ["QUI="%string] "audio/L16;rate=16000"
    = Some (header_layout 38 1 16000 32000 2 16 2 ++ list_byte_of_string "AB")
  ∧ length (header_layout 38 1 16000 32000 2 16 2 ++ list_byte_of_string "AB") = 46%nat
  ∧ handleTurn (mkSession
        [msg (Some [audioPart (Some "QUI="%string) (Some "audio/L16;rate=16000"%string)]) None;
         msg None (Some true)] [] false)
    = (mkSession [] [] false,
       Finished EmptyString
         (Played (header_layout 38 1 16000 32000 2 16 2 ++ list_byte_of_string "AB"))).
Proof.
  intros Hrange. rewrite !Forall_cons in Hrange.
  destruct Hrange as (Hd & Hd36 & Hc & Hr & Hb & Hrc & Hrcb & Hcb & _).
  split; [|split; [exact read_le_u16le | split; [exact read_le_u32le |]]].
  - rewrite createWavHeader_fields. cbn [numChannels sampleRate bitsPerSample].
    rewrite number_add_num by first [assumption | vm_compute; discriminate].
    rewrite !number_mul_num, !ToUint_div8, !ToUint_num by assumption.
    unfold header_layout.
    by rewrite !u32le_mod, !u16le_mod.
  - repeat split; vm_compute; reflexivity.
Qed.

Lemma createWavHeader_layout_witness :
  createWavHeader (num 2)
    {| numChannels := num 1; sampleRate := num 16000; bitsPerSample := num 16 |}
  = Some (header_layout (36 + 2) 1 16000 (16000 * 1 * 16 ÷ 8) (1 * 16 ÷ 8) 16 2).
Proof.
  apply (createWavHeader_layout 2 1 16000 16).
  repeat constructor; vm_compute; discriminate.
Defined.

(** C3. For every run of messages dequeued by one turn, ending with the first
    message whose [turnComplete] flag is set, [handleTurn] finishes and its
    transcript is the concatenation, in arrival order, of the [text] of every
    part of those messages: [all_parts] forgets how the parts are grouped
    into messages, and parts with audio in between add nothing to it. *)
Theorem transcript_is_concatenation (pre : list Genai.LiveServerMessage)
    (last : Genai.LiveServerMessage) (post : list Genai.LiveServerMessage)
    (parts0 : list string) (busy : bool) :
  Forall (λ m, message_turnComplete m = false) pre →
  message_turnComplete last = true →
  ∃ session' audio,
    handleTurn (mkSession (pre ++ last :: post) parts0 busy)
    = (session', Finished (texts (all_parts (pre ++ [last]))) audio)
    ∧ responseQueue session' = post.
Proof.
  intros Hpre Hlast.
  rewrite (handleTurn_complete pre last post parts0 busy Hpre Hlast).
  rewrite messages_turnText. cbn [initial_turn turnText].
  change (EmptyString +:+ ?s) with s.
  destruct (_ && _); [destruct (convertToWav _ _)|]; by eexists _, _.
Qed.

Lemma transcript_is_concatenation_witness :
  ∃ session' audio,
    handleTurn (mkSession [msg (Some [textPart "Hel"]) None;
                           msg (Some [textPart "lo"]) None;
                           msg None (Some true)] [] false)
    = (session', Finished "Hello" audio)
    ∧ responseQueue session' = [].
Proof.
  apply (transcript_is_concatenation
           [msg (Some [textPart "Hel"]) None; msg (Some [textPart "lo"]) None]
           (msg None (Some true)) [] [] false).
  - repeat constructor.
  - reflexivity.
Defined.

(** The test of the loop is true exactly of the messages whose
    [turnComplete] field is [true]. *)
Lemma message_turnComplete_true (m : Genai.LiveServerMessage) :
  message_turnComplete m = true ↔ has_turnComplete m.
Proof.
  unfold message_turnComplete, has_turnComplete.
  destruct m as [[[modelTurn complete]|]]; simpl.
  - split.
    + intros H. eexists. split; [reflexivity|]. simpl.
      destruct complete as [[]|]; congruence.
    + intros (content & Hcontent & Hcomplete). injection Hcontent as <-.
      simpl in Hcomplete. by rewrite Hcomplete.
  - split; [discriminate|]. by intros (content & Hcontent & _).
Qed.

Lemma message_turnComplete_false (m : Genai.LiveServerMessage) :
  message_turnComplete m = false ↔ ¬ has_turnComplete m.
Proof.
  rewrite <- message_turnComplete_true. by destruct (message_turnComplete m).
Qed.

(** C4. The loop sets [turnComplete] exactly when a dequeued message has a
    [turnComplete] field that is [true], whatever parts that message
    carries: a message sets it if and only if its field is [true], the loop
    ends with it set, and [handleTurn] finishes the turn, if and only if
    some message of the queue has the field [true].  A queue none of whose
    messages has it leaves [turnComplete] false after each of its prefixes,
    is consumed whole, and [handleTurn] stays waiting for the next
    message. *)
Theorem turn_completes_iff_flagged (msgs : list Genai.LiveServerMessage)
    (parts0 : list string) (busy : bool) :
  (∀ t m, turnComplete (handle_message t m) = true
          ↔ turnComplete t = true ∨ has_turnComplete m)
  ∧ (∀ t parts complete,
       turnComplete (handle_message t (msg parts complete))
       = turnComplete t || bool_decide (complete = Some true))
  ∧ (∀ t, turnComplete (handle_message t {| Genai.serverContent := None |})
          = turnComplete t)
  ∧ (turnComplete (turn_loop (initial_turn parts0) msgs).1 = true
     ↔ Exists has_turnComplete msgs)
  ∧ ((∃ transcript audio,
        (handleTurn (mkSession msgs parts0 busy)).2 = Finished transcript audio)
     ↔ Exists has_turnComplete msgs)
  ∧ (Forall (λ m, ¬ has_turnComplete m) msgs →
     (∀ n, turnComplete (foldl handle_message (initial_turn parts0) (take n msgs)) = false)
     ∧ ∃ t, handleTurn (mkSession msgs parts0 busy)
            = (mkSession [] (audioParts t) true, Waiting t)
            ∧ turnComplete t = false).
Proof.
  assert (∀ l, Forall (λ m, ¬ has_turnComplete m) l
               ↔ Forall (λ m, message_turnComplete m = false) l) as Hnot.
  { intros l. apply Forall_proper; [|reflexivity].
    intros m. symmetry. apply message_turnComplete_false. }
  assert (Forall (λ m, message_turnComplete m = false) msgs
          → ¬ Exists has_turnComplete msgs) as Hnone_not.
  { intros Hnone Hex. apply Exists_exists in Hex as (m & Hin & Hm).
    rewrite Forall_forall in Hnone. specialize (Hnone m Hin).
    apply message_turnComplete_true in Hm. congruence. }
  split; [|split; [|split; [|split; [|split]]]].
  - intros t m. rewrite handle_message_turnComplete, <- message_turnComplete_true.
    apply orb_true_iff.
  - intros t parts complete. rewrite handle_message_turnComplete. f_equal.
    by destruct complete as [[]|].
  - intros t. by rewrite handle_message_turnComplete, orb_false_r.
  - destruct (first_complete_split msgs)
      as [Hnone | (pre & last & post & -> & Hpre & Hlast)].
    + destruct (turn_loop_waiting msgs (initial_turn parts0) eq_refl Hnone) as [-> Hwait].
      cbn [fst]. rewrite Hwait. split; [discriminate|].
      intros Hex. by destruct (Hnone_not Hnone).
    + destruct (turn_loop_complete pre last post (initial_turn parts0) eq_refl Hpre Hlast)
        as [-> Hdone].
      cbn [fst]. rewrite Hdone. split; [|reflexivity].
      intros _. apply Exists_app. right. left. by apply message_turnComplete_true.
  - destruct (first_complete_split msgs)
      as [Hnone | (pre & last & post & -> & Hpre & Hlast)].
    + rewrite (handleTurn_waiting msgs parts0 busy Hnone). cbn [snd]. split.
      * by intros (transcript & audio & ?).
      * intros Hex. by destruct (Hnone_not Hnone).
    + rewrite (handleTurn_complete pre last post parts0 busy Hpre Hlast). split.
      * intros _. apply Exists_app. right. left. by apply message_turnComplete_true.
      * intros _. destruct (_ && _); [destruct (convertToWav _ _)|]; by do 2 eexists.
  - intros Hnone. apply Hnot in Hnone. split.
    + intros n.
      apply (turn_loop_waiting (take n msgs) (initial_turn parts0) eq_refl).
      by apply Forall_take.
    + eexists. split; [by apply handleTurn_waiting|].
      by apply (turn_loop_waiting msgs (initial_turn parts0) eq_refl).
Qed.

Lemma turn_completes_iff_flagged_witness :
  (∃ transcript audio,
     (handleTurn (mkSession [msg (Some [textPart "Hel"]) None;
                             msg None (Some true);
                             msg (Some [textPart "lo"]) None] [] false)).2
     = Finished transcript audio)
  ∧ (∃ t, handleTurn (mkSession [msg (Some [textPart "Hel"]) None;
                                 msg (Some [textPart "lo"]) (Some false)] [] false)
          = (mkSession [] (audioParts t) true, Waiting t)
          ∧ turnComplete t = false).
Proof.
  split.
  - destruct (turn_completes_iff_flagged
                [msg (Some [textPart "Hel"]) None; msg None (Some true);
                 msg (Some [textPart "lo"]) None] [] false)
      as (_ & _ & _ & _ & Hfinishes & _).
    apply Hfinishes. apply Exists_cons_tl, Exists_cons_hd.
    eexists. split; reflexivity.
  - destruct (turn_completes_iff_flagged
                [msg (Some [textPart "Hel"]) None; msg (Some [textPart "lo"]) (Some false)]
                [] false)
      as (_ & _ & _ & _ & _ & Hwaits).
    apply Hwaits.
    repeat constructor; intros (content & Hcontent & Hcomplete);
      injection Hcontent as <-; discriminate.
Defined.

(** C5, on the code as written.  A first turn whose only audio part has no
    [mimeType] ends without audio and without emptying [audioParts]; the
    turn that follows starts with that chunk in its buffer and plays a WAV
    whose data is "AB" of the first turn followed by its own "CD".  The same
    is seen when the two turns are chained by [processQueueContinuously]. *)
Theorem audioParts_survive_a_silent_turn :
  let turn1 := msg (Some [audioPart (Some "QUI="%string) None]) (Some true) in
  let turn2 := msg (Some [audioPart (Some "Q0Q="%string)
                            (Some "audio/L16;rate=16000"%string)]) (Some true) in
  handleTurn (mkSession [turn1; turn2] [] false)
  = (mkSession [turn2] ["QUI="%string] false, Finished EmptyString NoAudio)
  ∧ handleTurn (mkSession [turn2] ["QUI="%string] false)
    = (mkSession [] [] false,
       Finished EmptyString
         (Played (header_layout 40 1 16000 32000 2 16 4 ++ list_byte_of_string "ABCD")))
  ∧ processQueueContinuously (mkSession [turn1; turn2] [] false)
    = (mkSession [] [] false,
       [Finished EmptyString NoAudio;
        Finished EmptyString
          (Played (header_layout 40 1 16000 32000 2 16 4 ++ list_byte_of_string "ABCD"))]).
Proof. repeat split; vm_compute; reflexivity. Qed.

(** C6, on the code as written.  A [rate] value that is not a number is
    stored as it parses: the sample rate is [NaN], not the default 24000, and
    the header field holds 0.  The bit depth next to it is guarded by
    [isNaN] and keeps its default 16 on the same kind of input. *)
Theorem malformed_rate_is_stored :
  parseMimeType "audio/L16;rate=abc"
  = {| numChannels := num 1; sampleRate := NaN; bitsPerSample := num 16 |}
  ∧ parseMimeType "audio/Labc;rate=16000"
    = {| numChannels := num 1; sampleRate := num 16000; bitsPerSample := num 16 |}
  ∧ convertToWav ["QUI="%string] "audio/L16;rate=abc"
    = Some (header_layout 38 1 0 0 2 16 2 ++ list_byte_of_string "AB").
Proof. repeat split; vm_compute; reflexivity. Qed.

(** C7 as stated fails: when the first part with audio data has no
    [mimeType], the format of the turn is taken from a later part. *)
Lemma later_mimeType_is_taken :
  let parts := [audioPart (Some "QUI="%string) None;
                audioPart (Some "Q0Q="%string) (Some "audio/L8;rate=8000"%string)] in
  first_audio_mimeType parts = EmptyString
  ∧ audioMimeType (turn_loop (initial_turn []) [msg (Some parts) (Some true)]).1
    = "audio/L8;rate=8000"%string
  ∧ audioMimeType (turn_loop (initial_turn []) [msg (Some parts) (Some true)]).1
    ≠ first_audio_mimeType parts.
Proof. repeat split. vm_compute. discriminate. Qed.

(** C7, amended.  At the end of a turn the audio format string is the
    [mimeType] of the first part carrying audio data whose [mimeType] is
    present and not empty (and [''] when there is none); the [mimeType] of
    every later part is ignored.  In particular, when the first part carrying
    audio data has a non-empty [mimeType], that one is the format. *)
Theorem audioMimeType_is_first_nonempty (pre : list Genai.LiveServerMessage)
    (last : Genai.LiveServerMessage) (post : list Genai.LiveServerMessage)
    (parts0 : list string) :
  Forall (λ m, message_turnComplete m = false) pre →
  message_turnComplete last = true →
  let parts := all_parts (pre ++ [last]) in
  let t := (turn_loop (initial_turn parts0) (pre ++ last :: post)).1 in
  audioMimeType t = first_truthy (audio_mimeTypes parts)
  ∧ (truthy (first_audio_mimeType parts) = true →
     audioMimeType t = first_audio_mimeType parts).
Proof.
  intros Hpre Hlast parts t.
  assert (audioMimeType t = first_truthy (audio_mimeTypes parts)) as Ht.
  { unfold t.
    destruct (turn_loop_complete pre last post (initial_turn parts0) eq_refl Hpre Hlast)
      as [-> _].
    cbn [fst]. rewrite messages_audioMimeType, first_truthy_cons. reflexivity. }
  split; [exact Ht|].
  rewrite Ht. unfold first_audio_mimeType.
  destruct (audio_mimeTypes parts) as [|m rest]; [discriminate|].
  simpl. intros Hm. by rewrite first_truthy_cons, Hm.
Qed.

Lemma audioMimeType_is_first_nonempty_witness :
  let parts := [audioPart (Some "QUI="%string) None; textPart "Hi";
                audioPart (Some "Q0Q="%string) (Some "audio/L8;rate=8000"%string);
                audioPart (Some "RUY="%string) (Some "audio/L16;rate=16000"%string)] in
  audioMimeType (turn_loop (initial_turn []) [msg (Some parts) None; msg None (Some true)]).1
  = "audio/L8;rate=8000"%string.
Proof.
  intros parts.
  apply (audioMimeType_is_first_nonempty [msg (Some parts) None] (msg None (Some true)) [] []).
  - repeat constructor.
  - reflexivity.
Defined.

(** C8. A part whose [inlineData] has no [data] leaves the audio buffer and
    the audio format as they were; and a turn that ends with an empty audio
    buffer or without an audio format builds no WAV and still returns its
    transcript. *)
Theorem audio_without_data_is_skipped :
  (∀ (t : Turn) (part : Genai.Part) (blob : Genai.Blob),
     Genai.inlineData part = Some blob →
     Genai.data blob = None →
     audioParts (handle_part t part) = audioParts t
     ∧ audioMimeType (handle_part t part) = audioMimeType t
     ∧ turnComplete (handle_part t part) = turnComplete t)
  ∧ (∀ (pre : list Genai.LiveServerMessage) (last : Genai.LiveServerMessage)
       (post : list Genai.LiveServerMessage) (parts0 : list string) (busy : bool),
     Forall (λ m, message_turnComplete m = false) pre →
     message_turnComplete last = true →
     let t := foldl handle_message (initial_turn parts0) (pre ++ [last]) in
     audioParts t = [] ∨ audioMimeType t = EmptyString →
     handleTurn (mkSession (pre ++ last :: post) parts0 busy)
     = (mkSession post (audioParts t) false,
        Finished (texts (all_parts (pre ++ [last]))) NoAudio)).
Proof.
  split.
  - intros t part blob Hblob Hdata.
    rewrite handle_part_audioParts, handle_part_audioMimeType, handle_part_turnComplete.
    unfold carries_audio. rewrite Hblob. simpl. rewrite Hdata. simpl.
    rewrite app_nil_r. by destruct (truthy (audioMimeType t)).
  - intros pre last post parts0 busy Hpre Hlast t Hnone.
    rewrite (handleTurn_complete pre last post parts0 busy Hpre Hlast). fold t.
    assert (turnText t = texts (all_parts (pre ++ [last]))) as ->.
    { unfold t. by rewrite messages_turnText. }
    destruct Hnone as [-> | ->]; [reflexivity|].
    by rewrite andb_false_r.
Qed.

Lemma audio_without_data_is_skipped_witness :
  handleTurn (mkSession
      [msg (Some [textPart "Hi"; audioPart None (Some "audio/L16;rate=16000"%string)]) None;
       msg None (Some true)] [] false)
  = (mkSession [] [] false, Finished "Hi" NoAudio).
Proof.
  apply (proj2 audio_without_data_is_skipped
           [msg (Some [textPart "Hi"; audioPart None (Some "audio/L16;rate=16000"%string)]) None]
           (msg None (Some true)) [] [] false).
  - repeat constructor.
  - reflexivity.
  - left. reflexivity.
Defined.

(** C9 as stated fails: a bit depth of 65536 does not fit the two bytes at
    offset 34, which read back as 0. *)
Lemma header_field_wraps :
  let wav := header_layout 38 1 24000 196608000 8192 0 2 ++ list_byte_of_string "AB" in
  mapM base64ToUint8Array ["QUI="%string] = Some [list_byte_of_string "AB"]
  ∧ convertToWav ["QUI="%string] "audio/L65536" = Some wav
  ∧ bitsPerSample (parseMimeType "audio/L65536") = num 65536
  ∧ ¬ reads_back wav (parseMimeType "audio/L65536") 2.
Proof.
  repeat split; try (vm_compute; reflexivity).
  intros (_ & _ & Hbits & _). vm_compute in Hbits. discriminate.
Qed.

(** C9, amended.  For every chunk sequence that decodes and every
    [mimeType] whose parsed sample rate is a number below 2^32 and not
    negative, whose parsed bit depth is below 2^16 and not negative, and
    whose decoded data is shorter than 2^32 bytes, the fields at offsets 22,
    24, 34 and 40 of the WAV of [convertToWav] read back as the channel
    count, the sample rate, the bit depth and the data length it was built
    from. *)
Theorem header_reads_back (rawData : list string) (mimeType : string)
    (chunks : list (list byte)) (rate bits : Z) :
  mapM base64ToUint8Array rawData = Some chunks →
  sampleRate (parseMimeType mimeType) = num rate →
  bitsPerSample (parseMimeType mimeType) = num bits →
  0 ≤ rate < 2 ^ 32 →
  0 ≤ bits < 2 ^ 16 →
  Z.of_nat (length (mjoin chunks)) < 2 ^ 32 →
  ∃ wav, convertToWav rawData mimeType = Some wav
         ∧ reads_back wav (parseMimeType mimeType) (length (mjoin chunks)).
Proof.
  intros Hdec Hrate Hbits Hr Hb Hlen.
  rewrite (convertToWav_decoded _ _ _ Hdec), createWavHeader_fields.
  cbn [mbind option_bind]. eexists. split; [reflexivity|].
  rewrite Hrate, Hbits, parseMimeType_numChannels.
  match goal with
  | |- reads_back (header_layout ?cs ?ch ?r ?br ?ba ?b ?d ++ ?data) _ _ =>
      destruct (getUint_header cs ch r br ba b d data) as (H22 & H24 & H34 & H40)
  end.
  unfold reads_back. rewrite H22, H24, H34, H40, Hrate, Hbits.
  rewrite !ToUint_num by lia.
  rewrite parseMimeType_numChannels.
  rewrite !Z.mod_mod by (apply Z.pow_nonzero; lia).
  rewrite (Z.mod_small 1) by lia.
  rewrite (Z.mod_small rate), (Z.mod_small bits) by lia.
  rewrite Z.mod_small by lia.
  by repeat split.
Qed.

Lemma header_reads_back_witness :
  ∃ wav, convertToWav ["QUI="; "Q0Q="]%string "audio/L8;rate=8000" = Some wav
         ∧ reads_back wav (parseMimeType "audio/L8;rate=8000") 4.
Proof.
  apply (header_reads_back ["QUI="; "Q0Q="]%string "audio/L8;rate=8000"
           [list_byte_of_string "AB"; list_byte_of_string "CD"] 8000 8).
  - reflexivity.
  - reflexivity.
  - reflexivity.
  - lia.
  - lia.
  - simpl. lia.
Defined.

(** * Further properties of the code *)

(** ** Typed arrays and the transport encoding *)

Lemma decode_encoded (b : list byte) :
  base64ToUint8Array (arrayBufferToBase64 b) = Some b.
Proof.
  rewrite arrayBufferToBase64_btoa.
  rewrite (base64ToUint8Array_atob _ _ (atob_btoa _)).
  by rewrite list_byte_of_string_of_list_byte.
Qed.

Lemma decode_encoded_chunks (chunks : list (list byte)) :
  mapM base64ToUint8Array (arrayBufferToBase64 <$> chunks) = Some chunks.
Proof.
  apply mapM_Some. apply Forall2_fmap_l, Forall_Forall2_diag.
  apply Forall_forall. intros b _. apply decode_encoded.
Qed.

(** X1. [concatUint8Arrays] never raises a [RangeError]: for every list of
    arrays, empty arrays included, it returns the arrays end to end, and
    joining in two stages, as [convertToWav] does with the header and the
    data, gives the same bytes as joining at once. *)
Theorem concatUint8Arrays_joins (arrays more : list (list byte)) :
  concatUint8Arrays arrays = Some (mjoin arrays)
  ∧ (first ← concatUint8Arrays arrays;
     second ← concatUint8Arrays more;
     concatUint8Arrays [first; second])
    = concatUint8Arrays (arrays ++ more).
Proof.
  split; [apply concatUint8Arrays_spec|].
  rewrite !concatUint8Arrays_spec. cbn [mbind option_bind].
  rewrite concatUint8Arrays_spec. f_equal.
  rewrite join_app. simpl. by rewrite app_nil_r.
Qed.

(** X2. What the client encodes for transport, [convertToWav] frames intact:
    for all chunks of bytes and every [mimeType], converting the chunks as
    encoded by [arrayBufferToBase64] does not throw and gives the header for
    their total length followed by the original bytes, chunk after chunk. *)
Theorem convertToWav_of_encoded_chunks (chunks : list (list byte)) (mimeType : string) :
  ∃ header,
    createWavHeader (num (Z.of_nat (length (mjoin chunks)))) (parseMimeType mimeType)
      = Some header
    ∧ convertToWav (arrayBufferToBase64 <$> chunks) mimeType
      = Some (header ++ mjoin chunks).
Proof.
  destruct (createWavHeader_total (num (Z.of_nat (length (mjoin chunks))))
              (parseMimeType mimeType)) as (header & Hheader & _).
  exists header. split; [exact Hheader|].
  rewrite (convertToWav_decoded _ _ _ (decode_encoded_chunks chunks)), Hheader.
  reflexivity.
Qed.

Lemma getUint_header_sizes (cs ch r br ba b d : Z) (data : list byte) :
  let wav := header_layout cs ch r br ba b d ++ data in
  getUint 4 wav 4 = cs mod 2 ^ 32
  ∧ getUint 4 wav 28 = br mod 2 ^ 32
  ∧ getUint 2 wav 32 = ba mod 2 ^ 16
  ∧ getUint 4 wav 16 = 16
  ∧ getUint 2 wav 20 = 1.
Proof.
  repeat split.
  - exact (read_le_u32le cs).
  - exact (read_le_u32le br).
  - exact (read_le_u16le ba).
Qed.

(** X3. [createWavHeader] never raises a [RangeError], whatever numbers it is
    given ([NaN], negative, fractional or too large): the result is always 44
    bytes that start with "RIFF", hold "WAVEfmt " at offset 8, the constants
    16 and 1 at offsets 16 and 20, and "data" at offset 36. *)
Theorem createWavHeader_never_throws (dataLength : number)
    (options : WavConversionOptions) :
  ∃ header,
    createWavHeader dataLength options = Some header
    ∧ length header = 44%nat
    ∧ take 4 header = list_byte_of_string "RIFF"
    ∧ take 8 (drop 8 header) = list_byte_of_string "WAVEfmt "
    ∧ getUint 4 header 16 = 16
    ∧ getUint 2 header 20 = 1
    ∧ take 4 (drop 36 header) = list_byte_of_string "data".
Proof.
  eexists. split; [apply createWavHeader_fields|].
  repeat split.
Qed.

(** X4. A sample rate that is [NaN] (as a malformed [rate] parameter parses)
    is stored as 0 in the header, and so is the byte rate computed from it,
    whatever the other numbers are. *)
Theorem createWavHeader_NaN_rate (dataLength channels bits : number) :
  ∃ header,
    createWavHeader dataLength
      {| numChannels := channels; sampleRate := NaN; bitsPerSample := bits |}
      = Some header
    ∧ getUint 4 header 24 = 0
    ∧ getUint 4 header 28 = 0.
Proof.
  eexists. split; [apply createWavHeader_fields|].
  cbn [sampleRate numChannels bitsPerSample number_mul number_div ToUint].
  split; reflexivity.
Qed.

(** Whenever [convertToWav] returns, the chunks decoded and the result is the
    header, with its fields as stored, then the data. *)
Lemma convertToWav_Some (rawData : list string) (mimeType : string) (wav : list byte) :
  convertToWav rawData mimeType = Some wav →
  ∃ chunks,
    mapM base64ToUint8Array rawData = Some chunks
    ∧ wav = header_layout
              (ToUint 32 (number_add (num 36) (num (Z.of_nat (length (mjoin chunks))))))
              (ToUint 16 (numChannels (parseMimeType mimeType)))
              (ToUint 32 (sampleRate (parseMimeType mimeType)))
              (ToUint 32 (number_div (number_mul (number_mul
                 (sampleRate (parseMimeType mimeType))
                 (numChannels (parseMimeType mimeType)))
                 (bitsPerSample (parseMimeType mimeType))) (num 8)))
              (ToUint 16 (number_div (number_mul
                 (numChannels (parseMimeType mimeType))
                 (bitsPerSample (parseMimeType mimeType))) (num 8)))
              (ToUint 16 (bitsPerSample (parseMimeType mimeType)))
              (ToUint 32 (num (Z.of_nat (length (mjoin chunks)))))
            ++ mjoin chunks.
Proof.
  intros Hwav.
  destruct (mapM base64ToUint8Array rawData) as [chunks|] eqn:Hdec.
  - exists chunks. split; [reflexivity|].
    rewrite (convertToWav_decoded _ _ _ Hdec), createWavHeader_fields in Hwav.
    cbn [mbind option_bind] in Hwav. by injection Hwav as <-.
  - unfold convertToWav in Hwav. rewrite Hdec in Hwav. discriminate.
Qed.

(** X5. In every WAV that [convertToWav] returns and that is shorter than
    2^32 bytes, the sizes stored in the header agree with the file: the RIFF
    chunk size at offset 4 is the length of the file minus 8, and the data
    size at offset 40 is the number of bytes that follow the 44-byte
    header. *)
Theorem convertToWav_sizes (rawData : list string) (mimeType : string)
    (wav : list byte) :
  convertToWav rawData mimeType = Some wav →
  Z.of_nat (length wav) < 2 ^ 32 →
  (44 ≤ length wav)%nat
  ∧ getUint 4 wav 4 = Z.of_nat (length wav) - 8
  ∧ getUint 4 wav 40 = Z.of_nat (length wav) - 44
  ∧ getUint 4 wav 40 = Z.of_nat (length (drop 44 wav)).
Proof.
  intros Hwav Hlen.
  destruct (convertToWav_Some _ _ _ Hwav) as (chunks & _ & ->).
  rewrite length_app, header_layout_length in Hlen |- *.
  rewrite length_drop, length_app, header_layout_length.
  match goal with
  | |- context [header_layout ?cs ?ch ?r ?br ?ba ?b ?d ++ ?data] =>
      destruct (getUint_header cs ch r br ba b d data) as (_ & _ & _ & H40);
      destruct (getUint_header_sizes cs ch r br ba b d data) as (H4 & _)
  end.
  rewrite H4, H40, number_add_num, !ToUint_num by lia.
  rewrite !Z.mod_mod by (apply Z.pow_nonzero; lia).
  rewrite !Z.mod_small by lia.
  repeat split; lia.
Qed.

Lemma convertToWav_sizes_witness :
  (44 ≤ 48)%nat
  ∧ getUint 4 (header_layout 40 1 8000 8000 1 8 4 ++ list_byte_of_string "ABCD") 4 = 48 - 8
  ∧ getUint 4 (header_layout 40 1 8000 8000 1 8 4 ++ list_byte_of_string "ABCD") 40 = 48 - 44
  ∧ getUint 4 (header_layout 40 1 8000 8000 1 8 4 ++ list_byte_of_string "ABCD") 40 = 4.
Proof.
  apply (convertToWav_sizes ["QUI="; "Q0Q="]%string "audio/L8;rate=8000"
           (header_layout 40 1 8000 8000 1 8 4 ++ list_byte_of_string "ABCD")).
  - reflexivity.
  - simpl. lia.
Defined.

(** X6. For a bit depth that is a whole number of bytes, the rates of the
    header are consistent: when the parsed sample rate and bit depth are not
    negative, the depth is a multiple of 8 and the fields do not overflow,
    the block align at offset 32 is the depth in bytes and the byte rate at
    offset 28 is the sample rate times the block align. *)
Theorem convertToWav_rates (rawData : list string) (mimeType : string)
    (wav : list byte) (rate bits : Z) :
  convertToWav rawData mimeType = Some wav →
  sampleRate (parseMimeType mimeType) = num rate →
  bitsPerSample (parseMimeType mimeType) = num bits →
  0 ≤ rate →
  0 ≤ bits →
  bits mod 8 = 0 →
  bits / 8 < 2 ^ 16 →
  rate * (bits / 8) < 2 ^ 32 →
  getUint 2 wav 32 = bits / 8
  ∧ getUint 4 wav 28 = rate * getUint 2 wav 32.
Proof.
  intros Hwav Hrate Hbits Hr Hb Hmod Hba Hbr.
  destruct (convertToWav_Some _ _ _ Hwav) as (chunks & _ & ->).
  match goal with
  | |- context [header_layout ?cs ?ch ?r ?br ?ba ?b ?d ++ ?data] =>
      destruct (getUint_header_sizes cs ch r br ba b d data) as (_ & H28 & H32 & _)
  end.
  rewrite H28, H32, Hrate, Hbits, parseMimeType_numChannels.
  destruct (Z.eq_dec bits 0) as [-> | Hbits0].
  { rewrite !ToUint_zero_div8, !Z.mod_0_l by (apply Z.pow_nonzero; lia).
    split; [reflexivity | lia]. }
  assert (bits = 8 * (bits / 8)) as Hbytes by div_lia.
  assert (1 ≤ bits / 8) by lia.
  assert (rate ≤ rate * (bits / 8)) by nia.
  assert (rate * 1 * bits = 8 * (rate * (bits / 8))) as Hproduct
    by (rewrite Hbytes at 1; ring).
  rewrite !number_mul_num, !ToUint_div8 by lia.
  rewrite !Z.mod_mod by (apply Z.pow_nonzero; lia).
  rewrite !Z.quot_div_nonneg by nia.
  replace (rate * 1 * bits / 8) with (rate * (bits / 8)).
  2:{ rewrite (Z.div_mod bits 8) at 2 by lia. rewrite Hmod, Z.add_0_r.
      replace (rate * 1 * (8 * (bits / 8))) with (rate * (bits / 8) * 8) by lia.
      by rewrite Z.div_mul. }
  replace (1 * bits / 8) with (bits / 8) by (f_equal; lia).
  assert (0 ≤ bits / 8) by (apply Z.div_pos; lia).
  rewrite !Z.mod_small by nia.
  split; reflexivity.
Qed.

Lemma convertToWav_rates_witness :
  getUint 2 (header_layout 38 1 16000 32000 2 16 2 ++ list_byte_of_string "AB") 32 = 16 / 8
  ∧ getUint 4 (header_layout 38 1 16000 32000 2 16 2 ++ list_byte_of_string "AB") 28
    = 16000 * getUint 2 (header_layout 38 1 16000 32000 2 16 2 ++ list_byte_of_string "AB") 32.
Proof.
  apply (convertToWav_rates ["QUI="%string] "audio/L16;rate=16000"
           (header_layout 38 1 16000 32000 2 16 2 ++ list_byte_of_string "AB") 16000 16).
  - reflexivity.
  - reflexivity.
  - reflexivity.
  - lia.
  - lia.
  - reflexivity.
  - simpl. lia.
  - simpl. lia.
Defined.

(** ** Strings *)

Lemma chars_app (a b : string) :
  list_ascii_of_string (a +:+ b) = list_ascii_of_string a ++ list_ascii_of_string b.
Proof.
  induction a as [|c a IH]; [reflexivity|].
  change (c :: list_ascii_of_string (a +:+ b)
          = c :: (list_ascii_of_string a ++ list_ascii_of_string b)).
  by rewrite IH.
Qed.

Lemma chars_inj (a b : string) :
  list_ascii_of_string a = list_ascii_of_string b → a = b.
Proof.
  intros H. rewrite <- (string_of_list_ascii_of_string a), H.
  apply string_of_list_ascii_of_string.
Qed.

Lemma chars_rev_app (s1 s2 : string) :
  list_ascii_of_string (String.rev_app s1 s2)
  = reverse (list_ascii_of_string s1) ++ list_ascii_of_string s2.
Proof.
  revert s2. induction s1 as [|c s1 IH]; intros s2; [reflexivity|].
  simpl. rewrite IH, reverse_cons, <- app_assoc. reflexivity.
Qed.

Lemma chars_rev (s : string) :
  list_ascii_of_string (String.rev s) = reverse (list_ascii_of_string s).
Proof. unfold String.rev. rewrite chars_rev_app. simpl. apply app_nil_r. Qed.

Lemma rev_rev (s : string) : String.rev (String.rev s) = s.
Proof. apply chars_inj. by rewrite !chars_rev, reverse_involutive. Qed.

Lemma trimStart_suffix (s : string) :
  ∃ dropped, list_ascii_of_string s = dropped ++ list_ascii_of_string (trimStart s).
Proof.
  induction s as [|c s [dropped IH]]; [by exists []|].
  simpl. destruct (isWhiteSpace c).
  - exists (c :: dropped). simpl. by rewrite IH.
  - by exists [].
Qed.

(** [trim] only removes characters. *)
Lemma trim_Forall (P : ascii → Prop) (s : string) :
  Forall P (list_ascii_of_string s) → Forall P (list_ascii_of_string (trim s)).
Proof.
  assert (∀ s, Forall P (list_ascii_of_string s)
               → Forall P (list_ascii_of_string (trimStart s))) as Hstart.
  { intros s0 H. destruct (trimStart_suffix s0) as [dropped E].
    rewrite E in H. by apply Forall_app in H as [_ H]. }
  intros H. unfold trim, trimEnd.
  rewrite chars_rev. apply Forall_reverse, Hstart.
  rewrite chars_rev. by apply Forall_reverse, Hstart.
Qed.

Lemma trimStart_id (s : string) :
  Forall (λ c, isWhiteSpace c = false) (list_ascii_of_string s) → trimStart s = s.
Proof.
  destruct s as [|c s]; [reflexivity|]. simpl.
  intros H. apply Forall_cons in H as [-> _]. reflexivity.
Qed.

(** [trim] leaves a string without whitespace as it is. *)
Lemma trim_id (s : string) :
  Forall (λ c, isWhiteSpace c = false) (list_ascii_of_string s) → trim s = s.
Proof.
  intros H. unfold trim, trimEnd. rewrite (trimStart_id s H).
  rewrite trimStart_id; [apply rev_rev|].
  rewrite chars_rev. by apply Forall_reverse.
Qed.

Lemma split_nonempty (sep : ascii) (s : string) : split sep s ≠ [].
Proof.
  destruct s as [|c s]; simpl; [done|].
  destruct (Ascii.eqb c sep); [done|]. by destruct (split sep s).
Qed.

Lemma split_no_sep (sep : ascii) (s : string) :
  Forall (λ c, c ≠ sep) (list_ascii_of_string s) → split sep s = [s].
Proof.
  induction s as [|c s IH]; [reflexivity|].
  simpl. intros H. apply Forall_cons in H as [Hc H].
  apply Ascii.eqb_neq in Hc. rewrite Hc, (IH H). reflexivity.
Qed.

Lemma split_app_sep (sep : ascii) (a b : string) :
  Forall (λ c, c ≠ sep) (list_ascii_of_string a) →
  split sep (a +:+ String sep b) = a :: split sep b.
Proof.
  induction a as [|c a IH]; intros H.
  - change (split sep (String sep b) = EmptyString :: split sep b).
    simpl. by rewrite Ascii.eqb_refl.
  - simpl in H. apply Forall_cons in H as [Hc H].
    apply Ascii.eqb_neq in Hc.
    change (split sep (String c (a +:+ String sep b)) = String c a :: split sep b).
    simpl. rewrite Hc, (IH H). reflexivity.
Qed.

Lemma split_snoc (sep : ascii) (a b : string) :
  Forall (λ c, c ≠ sep) (list_ascii_of_string b) →
  split sep (a +:+ String sep b) = split sep a ++ [b].
Proof.
  intros Hb. induction a as [|c a IH].
  - change (split sep (String sep b) = [EmptyString; b]).
    simpl. by rewrite Ascii.eqb_refl, (split_no_sep sep b Hb).
  - change (split sep (String c (a +:+ String sep b)) = split sep (String c a) ++ [b]).
    simpl. rewrite IH. destruct (Ascii.eqb c sep); [reflexivity|].
    pose proof (split_nonempty sep a).
    by destruct (split sep a).
Qed.

(** The pieces of [split] are made of characters of the string. *)
Lemma split_Forall (P : ascii → Prop) (sep : ascii) (s : string) :
  Forall P (list_ascii_of_string s) →
  Forall (λ piece, Forall P (list_ascii_of_string piece)) (split sep s).
Proof.
  induction s as [|c s IH]; intros H; simpl.
  - by repeat constructor.
  - simpl in H. apply Forall_cons in H as [Hc H]. specialize (IH H).
    destruct (Ascii.eqb c sep).
    + constructor; [constructor | exact IH].
    + destruct (split sep s) as [|piece pieces].
      * repeat constructor. exact Hc.
      * apply Forall_cons in IH as [Hpiece Hpieces].
        constructor; [by constructor | exact Hpieces].
Qed.

(** ** Numerals and [parseInt] *)

Ltac digit_cases d :=
  let H := fresh in
  assert (d = 0 ∨ d = 1 ∨ d = 2 ∨ d = 3 ∨ d = 4 ∨ d = 5 ∨ d = 6 ∨ d = 7
          ∨ d = 8 ∨ d = 9) as H by lia;
  destruct H as [-> | [-> | [-> | [-> | [-> | [-> | [-> | [-> | [-> | ->]]]]]]]]].

Lemma digit_char_spec (d : Z) :
  0 ≤ d < 10 →
  digit (digit_char d) = Some d
  ∧ isWhiteSpace (digit_char d) = false
  ∧ digit_char d ≠ ";"%char ∧ digit_char d ≠ "/"%char ∧ digit_char d ≠ "="%char
  ∧ digit_char d ≠ "-"%char ∧ digit_char d ≠ "+"%char.
Proof. intros Hd. digit_cases d; by repeat split. Qed.

Lemma numeral_chars (ds : list Z) :
  list_ascii_of_string (numeral ds) = digit_char <$> ds.
Proof. apply list_ascii_of_string_of_list_ascii. Qed.

(** The characters of a numeral are no whitespace and no separator. *)
Lemma numeral_Forall (ds : list Z) :
  Forall (λ d, 0 ≤ d < 10) ds →
  Forall (λ c, isWhiteSpace c = false ∧ c ≠ ";"%char ∧ c ≠ "/"%char ∧ c ≠ "="%char)
         (list_ascii_of_string (numeral ds)).
Proof.
  intros H. rewrite numeral_chars. apply Forall_fmap.
  eapply Forall_impl; [exact H|]. intros d Hd. simpl.
  by destruct (digit_char_spec d Hd) as (_ & ? & ? & ? & ? & _).
Qed.

Lemma digits_numeral (ds : list Z) (acc : Z) (seen : bool) :
  Forall (λ d, 0 ≤ d < 10) ds →
  seen = true ∨ ds ≠ [] →
  digits (numeral ds) acc seen = Some (foldl (λ acc d, 10 * acc + d) acc ds).
Proof.
  intros Hds. revert acc seen.
  induction Hds as [|d ds Hd _ IH]; intros acc seen Hseen.
  - destruct Hseen as [-> | ?]; [reflexivity | done].
  - change (numeral (d :: ds)) with (String (digit_char d) (numeral ds)).
    cbn [digits foldl].
    destruct (digit_char_spec d Hd) as (-> & _). apply IH. by left.
Qed.

(** [parseInt] reads a numeral as the number it denotes. *)
Lemma parseInt10_numeral (ds : list Z) :
  Forall (λ d, 0 ≤ d < 10) ds →
  ds ≠ [] →
  parseInt10 (numeral ds) = num (numeral_value ds).
Proof.
  intros Hds Hne. destruct ds as [|d ds]; [done|].
  pose proof (digits_numeral (d :: ds) 0 false Hds (or_intror Hne)) as Hdigits.
  apply Forall_cons in Hds as [Hd _].
  change (numeral (d :: ds)) with (String (digit_char d) (numeral ds)) in *.
  unfold numeral_value.
  digit_cases d;
    (match goal with
     | |- context [digit_char ?k] =>
         let c := eval vm_compute in (digit_char k) in
         change (digit_char k) with c in *
     end);
    unfold parseInt10; cbn [trimStart];
    (match goal with |- context [isWhiteSpace ?c] =>
       change (isWhiteSpace c) with false end);
    cbv iota; rewrite Hdigits; f_equal; lia.
Qed.

(** ** More on MIME type parsing *)

Ltac weaken_chars := intros ? ?; cbv beta in *; tauto.

Lemma parseInt10_integer (s : string) :
  parseInt10 s = NaN ∨ ∃ z, parseInt10 s = num z.
Proof.
  unfold parseInt10.
  destruct (match trimStart s with
            | String "-" s' => (-1, s')
            | String "+" s' => (1, s')
            | _ => (1, trimStart s)
            end) as [sign rest].
  destruct (digits rest 0 false); [right; by eexists | by left].
Qed.

(** X7. Whatever the MIME type, [parseMimeType] returns one channel, a bit
    depth that is never [NaN] (the [isNaN] test keeps the default 16) and a
    sample rate that may be [NaN]; apart from that, both are the double of
    an integer, as [parseInt] gives it: the integer itself up to 2^53 in
    magnitude, the nearest double above that, an infinity beyond the range
    of the doubles, as for 310 digits 9. *)
Theorem parseMimeType_range (mimeType : string) :
  numChannels (parseMimeType mimeType) = num 1
  ∧ isNaN (bitsPerSample (parseMimeType mimeType)) = false
  ∧ (∃ bits, bitsPerSample (parseMimeType mimeType) = num bits)
  ∧ (sampleRate (parseMimeType mimeType) = NaN
     ∨ ∃ rate, sampleRate (parseMimeType mimeType) = num rate)
  ∧ (∀ z, isNaN (num z) = false)
  ∧ parseMimeType ("audio/L" +:+ numeral (replicate 310 9)
                   +:+ ";rate=" +:+ numeral (replicate 310 9))
    = {| numChannels := num 1; sampleRate := Infinity false;
         bitsPerSample := Infinity false |}
  ∧ parseMimeType "audio/L9007199254740993;rate=-9007199254740993"
    = {| numChannels := num 1; sampleRate := num (-9007199254740992);
         bitsPerSample := num 9007199254740992 |}.
Proof.
  split; [reflexivity|]. split; [apply parseMimeType_bitsPerSample|].
  split; [|split; [|split; [exact num_not_NaN | split; vm_compute; reflexivity]]].
  - unfold parseMimeType. cbn [bitsPerSample].
    destruct (_ && _); [|by eexists].
    destruct (parseInt10_integer
                (slice1 (default EmptyString
                   (split "/" (default EmptyString
                      ((trim <$> split ";" mimeType) !! 0%nat)) !! 1%nat))))
      as [-> | [z ->]]; cbv zeta.
    + by eexists.
    + rewrite num_not_NaN. by eexists.
  - unfold parseMimeType. cbn [sampleRate].
    assert (num 24000 = NaN ∨ ∃ rate, num 24000 = num rate) as H by (right; by eexists).
    revert H. generalize (num 24000).
    induction (trim <$> split ";" mimeType) as [|param params IH]; intros rate H.
    + exact H.
    + cbn [foldl]. apply IH. unfold parseMimeType_param.
      destruct (_ && _); [apply parseInt10_integer | exact H].
Qed.

(** The last parameter of the loop: a [rate] with a numeral as its value. *)
Lemma parseMimeType_param_rate (rate : number) (R : list Z) :
  Forall (λ d, 0 ≤ d < 10) R →
  R ≠ [] →
  parseMimeType_param rate ("rate=" +:+ numeral R) = num (numeral_value R).
Proof.
  intros HR Hne. unfold parseMimeType_param.
  pose proof (numeral_Forall R HR) as Hchars.
  change ("rate=" +:+ numeral R) with ("rate" +:+ String "=" (numeral R)).
  rewrite split_app_sep by (repeat constructor; discriminate).
  rewrite split_no_sep by (eapply Forall_impl; [exact Hchars|]; weaken_chars).
  cbn [fmap list_fmap lookup list_lookup].
  rewrite (trim_id (numeral R)) by (eapply Forall_impl; [exact Hchars|]; weaken_chars).
  rewrite (trim_id "rate") by (repeat constructor).
  rewrite bool_decide_true by reflexivity.
  destruct R as [|d R]; [done|].
  change (truthy_opt (Some (numeral (d :: R)))) with true.
  cbn [andb default from_option id].
  by apply parseInt10_numeral.
Qed.

Lemma rate_param_chars (R : list Z) :
  Forall (λ d, 0 ≤ d < 10) R →
  Forall (λ c, isWhiteSpace c = false ∧ c ≠ ";"%char)
         (list_ascii_of_string ("rate=" +:+ numeral R)).
Proof.
  intros HR. rewrite chars_app. apply Forall_app. split.
  - repeat constructor; discriminate.
  - eapply Forall_impl; [exact (numeral_Forall R HR)|]. weaken_chars.
Qed.

(** X8. The MIME types of the intended form are read as written: for every
    type name without whitespace and separators and all non-empty digit
    sequences [B] and [R], [parseMimeType] of type/L[B];rate=[R] is one
    channel, the bit depth [B] denotes and the sample rate [R] denotes, each
    as the double [parseInt] gives: the integer itself up to 2^53, the
    nearest double above that, an infinity from 2^1024 - 2^970 on. *)
Theorem parseMimeType_canonical (type : string) (B R : list Z) :
  Forall (λ c, isWhiteSpace c = false ∧ c ≠ ";"%char ∧ c ≠ "/"%char ∧ c ≠ "="%char)
         (list_ascii_of_string type) →
  Forall (λ d, 0 ≤ d < 10) B → B ≠ [] →
  Forall (λ d, 0 ≤ d < 10) R → R ≠ [] →
  parseMimeType (type +:+ "/L" +:+ numeral B +:+ ";rate=" +:+ numeral R)
  = {| numChannels := num 1;
       sampleRate := num (numeral_value R);
       bitsPerSample := num (numeral_value B) |}.
Proof.
  intros Htype HB HBne HR HRne.
  pose proof (numeral_Forall B HB) as HBchars.
  set (p0 := type +:+ "/L" +:+ numeral B).
  set (p1 := "rate=" +:+ numeral R).
  assert (type +:+ "/L" +:+ numeral B +:+ ";rate=" +:+ numeral R
          = p0 +:+ String ";" p1) as ->.
  { unfold p0. by rewrite !append_assoc. }
  assert (Forall (λ c, isWhiteSpace c = false ∧ c ≠ ";"%char ∧ c ≠ "="%char)
                 (list_ascii_of_string p0)) as Hp0.
  { unfold p0. rewrite !chars_app. repeat (apply Forall_app; split).
    - eapply Forall_impl; [exact Htype|]. weaken_chars.
    - repeat constructor; discriminate.
    - eapply Forall_impl; [exact HBchars|]. weaken_chars. }
  pose proof (rate_param_chars R HR) as Hp1.
  unfold parseMimeType.
  rewrite split_app_sep by (eapply Forall_impl; [exact Hp0|]; weaken_chars).
  rewrite (split_no_sep ";" p1) by (eapply Forall_impl; [exact Hp1|]; weaken_chars).
  cbn [fmap list_fmap].
  rewrite (trim_id p0) by (eapply Forall_impl; [exact Hp0|]; weaken_chars).
  rewrite (trim_id p1) by (eapply Forall_impl; [exact Hp1|]; weaken_chars).
  cbn [lookup list_lookup default from_option id].
  f_equal.
  - (* the loop over the parameters *)
    cbn [foldl]. unfold p1. rewrite parseMimeType_param_rate by assumption.
    reflexivity.
  - (* the bit depth *)
    assert (split "/" p0 = [type; "L" +:+ numeral B]) as ->.
    { unfold p0. change ("/L" +:+ numeral B) with (String "/" ("L" +:+ numeral B)).
      rewrite split_app_sep by (eapply Forall_impl; [exact Htype|]; weaken_chars).
      rewrite split_no_sep; [reflexivity|].
      rewrite chars_app. apply Forall_app. split.
      - repeat constructor; discriminate.
      - eapply Forall_impl; [exact HBchars|]. weaken_chars. }
    cbn [lookup list_lookup default from_option id].
    change ("L" +:+ numeral B) with (String "L" (numeral B)).
    cbn [truthy_opt truthy startsWith slice1 andb].
    change (Ascii.eqb "L" "L") with true. cbv iota.
    rewrite parseInt10_numeral by assumption. cbv zeta.
    rewrite num_not_NaN. reflexivity.
Qed.

Lemma parseMimeType_canonical_witness :
  parseMimeType "audio/L16;rate=16000"
  = {| numChannels := num 1; sampleRate := num 16000; bitsPerSample := num 16 |}.
Proof.
  apply (parseMimeType_canonical "audio" [1; 6] [1; 6; 0; 0; 0]).
  - repeat constructor; discriminate.
  - repeat constructor; lia.
  - discriminate.
  - repeat constructor; lia.
  - discriminate.
Defined.

(** X9. The last [rate] parameter wins: whatever precedes it, parameters
    named [rate] included, a MIME type that ends with ;rate=[R] for a
    non-empty digit sequence [R] has the sample rate [R] denotes, as the
    double [parseInt] gives: the integer itself up to 2^53, the nearest
    double above that, an infinity from 2^1024 - 2^970 on. *)
Theorem parseMimeType_last_rate (mimeType : string) (R : list Z) :
  Forall (λ d, 0 ≤ d < 10) R →
  R ≠ [] →
  sampleRate (parseMimeType (mimeType +:+ ";rate=" +:+ numeral R))
  = num (numeral_value R).
Proof.
  intros HR Hne. pose proof (rate_param_chars R HR) as Hp1.
  change (";rate=" +:+ numeral R) with (String ";" ("rate=" +:+ numeral R)).
  unfold parseMimeType. cbn [sampleRate].
  rewrite split_snoc by (eapply Forall_impl; [exact Hp1|]; weaken_chars).
  rewrite fmap_app, foldl_app. cbn [fmap list_fmap foldl].
  rewrite (trim_id ("rate=" +:+ numeral R))
    by (eapply Forall_impl; [exact Hp1|]; weaken_chars).
  by apply parseMimeType_param_rate.
Qed.

Lemma parseMimeType_last_rate_witness :
  sampleRate (parseMimeType "audio/L16;rate=abc; rate = 8000;rate=16000") = num 16000.
Proof.
  apply (parseMimeType_last_rate "audio/L16;rate=abc; rate = 8000" [1; 6; 0; 0; 0]).
  - repeat constructor; lia.
  - discriminate.
Defined.

Lemma parseMimeType_param_no_value (rate : number) (param : string) :
  Forall (λ c, c ≠ "="%char) (list_ascii_of_string param) →
  parseMimeType_param rate param = rate.
Proof.
  intros Hchars. unfold parseMimeType_param.
  rewrite split_no_sep by assumption.
  cbn [fmap list_fmap lookup list_lookup truthy_opt].
  by rewrite andb_false_r.
Qed.

(** X10. The defaults stay where the syntax that overrides them is absent: a
    MIME type without any "=" has the sample rate 24000, even with a
    parameter named [rate], and one without any "/" has the bit depth 16,
    whatever else it contains. *)
Theorem parseMimeType_defaults (mimeType : string) :
  (Forall (λ c, c ≠ "="%char) (list_ascii_of_string mimeType) →
   sampleRate (parseMimeType mimeType) = num 24000)
  ∧ (Forall (λ c, c ≠ "/"%char) (list_ascii_of_string mimeType) →
     bitsPerSample (parseMimeType mimeType) = num 16).
Proof.
  split; intros Hchars.
  - unfold parseMimeType. cbn [sampleRate].
    pose proof (split_Forall _ ";" mimeType Hchars) as Hpieces.
    generalize (num 24000).
    induction Hpieces as [|piece pieces Hpiece _ IH]; intros rate; [reflexivity|].
    cbn [fmap list_fmap foldl].
    rewrite parseMimeType_param_no_value by (by apply trim_Forall).
    apply IH.
  - unfold parseMimeType. cbn [bitsPerSample].
    pose proof (split_Forall _ ";" mimeType Hchars) as Hpieces.
    pose proof (split_nonempty ";" mimeType) as Hne.
    destruct (split ";" mimeType) as [|piece pieces]; [done|].
    apply Forall_cons in Hpieces as [Hpiece _].
    cbn [fmap list_fmap lookup list_lookup default from_option id].
    rewrite split_no_sep by (by apply trim_Forall).
    reflexivity.
Qed.

Lemma parseMimeType_defaults_witness :
  sampleRate (parseMimeType "audio/L8; rate ;x") = num 24000
  ∧ bitsPerSample (parseMimeType "L8;rate=8000") = num 16.
Proof.
  split.
  - apply (parseMimeType_defaults "audio/L8; rate ;x").
    repeat constructor; discriminate.
  - apply (parseMimeType_defaults "L8;rate=8000").
    repeat constructor; discriminate.
Defined.

(** ** Turns, one after the other *)

(** The state at the end of a completed turn, from what was dequeued. *)
Lemma completed_turn_state (msgs : list Genai.LiveServerMessage) (parts0 : list string) :
  let t := foldl handle_message (initial_turn parts0) msgs in
  turnText t = texts (all_parts msgs)
  ∧ audioParts t = parts0 ++ audio_datas (all_parts msgs)
  ∧ audioMimeType t = first_truthy (audio_mimeTypes (all_parts msgs)).
Proof.
  cbv zeta. rewrite messages_turnText, messages_audioParts, messages_audioMimeType.
  cbn [initial_turn turnText audioParts audioMimeType].
  by rewrite first_truthy_cons.
Qed.

Lemma length_pos_nonempty {A} (l : list A) : l ≠ [] → (0 <? length l)%nat = true.
Proof. destruct l; [done|]. reflexivity. Qed.

(** X11. The audio of a turn is framed in arrival order.  When a turn
    completes with a non-empty audio format and all its chunks decode, what
    is played is the header for the parsed format and the total length,
    followed by the decoded chunks: those left over in [audioParts] first,
    then those of the parts of this turn in the order they arrived, however
    the parts are grouped into messages or interleaved with text; the turn
    leaves [audioParts] empty. *)
Theorem turn_audio_in_arrival_order (pre : list Genai.LiveServerMessage)
    (last : Genai.LiveServerMessage) (post : list Genai.LiveServerMessage)
    (parts0 : list string) (busy : bool) (chunks : list (list byte)) :
  Forall (λ m, message_turnComplete m = false) pre →
  message_turnComplete last = true →
  let parts := all_parts (pre ++ [last]) in
  let mimeType := first_truthy (audio_mimeTypes parts) in
  truthy mimeType = true →
  parts0 ++ audio_datas parts ≠ [] →
  mapM base64ToUint8Array (parts0 ++ audio_datas parts) = Some chunks →
  ∃ header,
    createWavHeader (num (Z.of_nat (length (mjoin chunks)))) (parseMimeType mimeType)
      = Some header
    ∧ handleTurn (mkSession (pre ++ last :: post) parts0 busy)
      = (mkSession post [] false,
         Finished (texts parts) (Played (header ++ mjoin chunks))).
Proof.
  intros Hpre Hlast parts mimeType Hmime Hne Hdec.
  destruct (createWavHeader_total (num (Z.of_nat (length (mjoin chunks))))
              (parseMimeType mimeType)) as (header & Hheader & _).
  exists header. split; [exact Hheader|].
  rewrite (handleTurn_complete pre last post parts0 busy Hpre Hlast).
  destruct (completed_turn_state (pre ++ [last]) parts0) as (-> & -> & ->).
  fold parts. fold mimeType.
  rewrite (length_pos_nonempty _ Hne), Hmime. cbn [andb].
  rewrite (convertToWav_decoded _ _ _ Hdec), Hheader. reflexivity.
Qed.

Lemma turn_audio_in_arrival_order_witness :
  ∃ header,
    createWavHeader (num 6) (parseMimeType "audio/L8;rate=8000") = Some header
    ∧ handleTurn (mkSession
        [msg (Some [audioPart (Some "Q0Q="%string) None; textPart "Hi"]) None;
         msg (Some [audioPart (Some "RUY="%string) (Some "audio/L8;rate=8000"%string)])
             (Some true)]
        ["QUI="%string] false)
      = (mkSession [] [] false,
         Finished "Hi" (Played (header ++ list_byte_of_string "ABCDEF"))).
Proof.
  apply (turn_audio_in_arrival_order
           [msg (Some [audioPart (Some "Q0Q="%string) None; textPart "Hi"]) None]
           (msg (Some [audioPart (Some "RUY="%string) (Some "audio/L8;rate=8000"%string)])
                (Some true))
           [] ["QUI="%string] false
           [list_byte_of_string "AB"; list_byte_of_string "CD"; list_byte_of_string "EF"]).
  - repeat constructor.
  - reflexivity.
  - reflexivity.
  - discriminate.
  - reflexivity.
Defined.

Lemma convertToWav_undecodable (rawData : list string) (mimeType : string) :
  mapM base64ToUint8Array rawData = None → convertToWav rawData mimeType = None.
Proof. intros H. unfold convertToWav. by rewrite H. Qed.

Lemma processQueue_fuel_irrelevant (fuel1 fuel2 : nat) (s : Session) :
  (length (responseQueue s) ≤ fuel1)%nat →
  (length (responseQueue s) ≤ fuel2)%nat →
  processQueue fuel1 s = processQueue fuel2 s.
Proof.
  revert fuel2 s. induction fuel1 as [|fuel1 IH]; intros fuel2 s H1 H2.
  - destruct (responseQueue s) eqn:E; [|simpl in H1; lia].
    destruct fuel2; simpl; by rewrite ?E.
  - destruct (responseQueue s) as [|m queue] eqn:E.
    { destruct fuel2; simpl; by rewrite ?E. }
    destruct fuel2 as [|fuel2]; [simpl in H2; lia|].
    cbn [processQueue]. rewrite E.
    destruct (isProcessingTurn s); [reflexivity|].
    pose proof (handleTurn_dequeues s) as Hlt.
    rewrite E in Hlt. specialize (Hlt ltac:(done)).
    destruct (handleTurn s) as [s' outcome]. cbn [fst] in Hlt. simpl in H1, H2, Hlt.
    rewrite (IH fuel2 s') by lia. reflexivity.
Qed.

(** [processQueueContinuously], turn by turn, without its fuel. *)
Lemma processQueueContinuously_step (s : Session) :
  responseQueue s ≠ [] →
  isProcessingTurn s = false →
  processQueueContinuously s
  = let '(s', outcome) := handleTurn s in
    let '(s'', outcomes) := processQueueContinuously s' in
    (s'', outcome :: outcomes).
Proof.
  intros Hqueue Hidle. unfold processQueueContinuously.
  pose proof (handleTurn_dequeues s Hqueue) as Hlt.
  destruct (responseQueue s) as [|m queue] eqn:E; [done|].
  cbn [length processQueue]. rewrite E, Hidle.
  destruct (handleTurn s) as [s' outcome]. cbn [fst] in Hlt. simpl in Hlt.
  rewrite (processQueue_fuel_irrelevant (length queue) (length (responseQueue s')) s')
    by lia.
  reflexivity.
Qed.

Lemma processQueueContinuously_stops (s : Session) :
  responseQueue s = [] ∨ isProcessingTurn s = true →
  processQueueContinuously s = (s, []).
Proof.
  intros H. unfold processQueueContinuously.
  destruct (responseQueue s) as [|m queue] eqn:E; [reflexivity|].
  destruct H as [? | H]; [done|].
  cbn [length processQueue]. by rewrite E, H.
Qed.

(** X12. A chunk that is not base64 wedges the page.  When a turn completes
    with an audio format and some chunk of its buffer does not decode,
    [convertToWav] throws: nothing is played, the buffer keeps its chunks,
    [isProcessingTurn] stays set, and [processQueueContinuously] starts no
    further turn: the messages behind the turn stay in the queue. *)
Theorem undecodable_chunk_wedges (pre : list Genai.LiveServerMessage)
    (last : Genai.LiveServerMessage) (post : list Genai.LiveServerMessage)
    (parts0 : list string) :
  Forall (λ m, message_turnComplete m = false) pre →
  message_turnComplete last = true →
  let parts := all_parts (pre ++ [last]) in
  truthy (first_truthy (audio_mimeTypes parts)) = true →
  mapM base64ToUint8Array (parts0 ++ audio_datas parts) = None →
  processQueueContinuously (mkSession (pre ++ last :: post) parts0 false)
  = (mkSession post (parts0 ++ audio_datas parts) true,
     [Finished (texts parts) ConvertFailed]).
Proof.
  intros Hpre Hlast parts Hmime Hdec.
  assert (parts0 ++ audio_datas parts ≠ []) as Hne.
  { intros E. rewrite E in Hdec. discriminate. }
  rewrite processQueueContinuously_step; [|by destruct pre | reflexivity].
  rewrite (handleTurn_complete pre last post parts0 false Hpre Hlast).
  destruct (completed_turn_state (pre ++ [last]) parts0) as (-> & -> & ->).
  fold parts.
  rewrite (length_pos_nonempty _ Hne), Hmime. cbn [andb].
  rewrite (convertToWav_undecodable _ _ Hdec).
  rewrite processQueueContinuously_stops by (by right).
  reflexivity.
Qed.

Lemma undecodable_chunk_wedges_witness :
  processQueueContinuously (mkSession
      [msg (Some [textPart "Hi"; audioPart (Some "Q"%string) (Some "audio/L16"%string)])
           (Some true);
       msg (Some [textPart "again"]) (Some true)] [] false)
  = (mkSession [msg (Some [textPart "again"]) (Some true)] ["Q"%string] true,
     [Finished "Hi" ConvertFailed]).
Proof.
  apply (undecodable_chunk_wedges []
           (msg (Some [textPart "Hi"; audioPart (Some "Q"%string) (Some "audio/L16"%string)])
                (Some true))
           [msg (Some [textPart "again"]) (Some true)] []).
  - constructor.
  - reflexivity.
  - reflexivity.
  - reflexivity.
Defined.

(** X13. Turns do not see the messages behind them.  On a queue that starts
    with a complete turn, [processQueueContinuously] gives for that turn the
    outcome [handleTurn] gives on the messages of the turn alone, and then, if
    the conversion did not throw, goes on with the rest of the queue and the
    [audioParts] the turn left. *)
Theorem processQueue_turn_by_turn (pre : list Genai.LiveServerMessage)
    (last : Genai.LiveServerMessage) (post : list Genai.LiveServerMessage)
    (parts0 : list string) :
  Forall (λ m, message_turnComplete m = false) pre →
  message_turnComplete last = true →
  processQueueContinuously (mkSession (pre ++ last :: post) parts0 false)
  = let '(s1, outcome) := handleTurn (mkSession (pre ++ [last]) parts0 false) in
    if isProcessingTurn s1
    then (mkSession post (sessionAudioParts s1) true, [outcome])
    else
      let '(s2, outcomes) :=
        processQueueContinuously (mkSession post (sessionAudioParts s1) false) in
      (s2, outcome :: outcomes).
Proof.
  intros Hpre Hlast.
  rewrite processQueueContinuously_step; [|by destruct pre | reflexivity].
  rewrite (handleTurn_complete pre last post parts0 false Hpre Hlast).
  rewrite (handleTurn_complete pre last [] parts0 false Hpre Hlast).
  destruct (_ && _); [destruct (convertToWav _ _)|]; cbn [isProcessingTurn sessionAudioParts].
  - reflexivity.
  - by rewrite processQueueContinuously_stops by (by right).
  - reflexivity.
Qed.

Lemma processQueue_turn_by_turn_witness :
  processQueueContinuously (mkSession
      ([msg (Some [textPart "Hel"]) None] ++ msg (Some [textPart "lo"]) (Some true)
         :: [msg (Some [textPart "Bye"]) (Some true)]) [] false)
  = (mkSession [] [] false, [Finished "Hello" NoAudio; Finished "Bye" NoAudio]).
Proof.
  apply (processQueue_turn_by_turn [msg (Some [textPart "Hel"]) None]
           (msg (Some [textPart "lo"]) (Some true))
           [msg (Some [textPart "Bye"]) (Some true)] []).
  - repeat constructor.
  - reflexivity.
Defined.

(** X14. A queue made of complete turns whose parts carry no audio is
    consumed whole, and every turn returns the concatenation of its own
    texts: no text of one turn shows up in another. *)
Theorem text_turns_are_separate
    (turns : list (list Genai.LiveServerMessage * Genai.LiveServerMessage)) :
  Forall (λ turn, Forall (λ m, message_turnComplete m = false) turn.1
                  ∧ message_turnComplete turn.2 = true
                  ∧ audio_datas (all_parts (turn.1 ++ [turn.2])) = []) turns →
  processQueueContinuously
    (mkSession (mjoin ((λ turn, turn.1 ++ [turn.2]) <$> turns)) [] false)
  = (mkSession [] [] false,
     (λ turn, Finished (texts (all_parts (turn.1 ++ [turn.2]))) NoAudio) <$> turns).
Proof.
  induction 1 as [|[pre last] turns (Hpre & Hlast & Hsilent) _ IH].
  - reflexivity.
  - rewrite !fmap_cons. cbn [fst snd] in *.
    match goal with
    | |- context [mjoin (?a :: ?l)] => change (mjoin (a :: l)) with (a ++ mjoin l)
    end.
    rewrite <- app_assoc. cbn [app].
    rewrite processQueueContinuously_step; [|by destruct pre | reflexivity].
    rewrite (handleTurn_complete pre last _ [] false Hpre Hlast).
    destruct (completed_turn_state (pre ++ [last]) []) as (-> & -> & _).
    rewrite Hsilent. cbn [app length Nat.ltb Nat.leb andb].
    by rewrite IH.
Qed.

Lemma text_turns_are_separate_witness :
  processQueueContinuously (mkSession
      [msg (Some [textPart "Hel"]) None; msg (Some [textPart "lo"]) (Some true);
       msg (Some [textPart "Bye"]) (Some true)] [] false)
  = (mkSession [] [] false, [Finished "Hello" NoAudio; Finished "Bye" NoAudio]).
Proof.
  apply (text_turns_are_separate
           [([msg (Some [textPart "Hel"]) None], msg (Some [textPart "lo"]) (Some true));
            ([], msg (Some [textPart "Bye"]) (Some true))]).
  repeat constructor.
Defined.

(** ** The chat bubble *)

Lemma truthy_append_r (a b : string) : truthy b = true → truthy (a +:+ b) = true.
Proof. destruct a; [done|]. reflexivity. Qed.

Lemma updateModelMessage_bubble (s newText : string) :
  truthy newText = true →
  updateModelMessage (bubble_showing s) newText = bubble_showing newText.
Proof.
  intros H. unfold bubble_showing. rewrite H.
  destruct (truthy s); reflexivity.
Qed.

Lemma show_part_bubble (t : Turn) (part : Genai.Part) :
  show_part (t, bubble_showing (turnText t)) part
  = (handle_part t part, bubble_showing (turnText (handle_part t part))).
Proof.
  unfold show_part. cbn [fst snd]. f_equal.
  pose proof (handle_part_turnText t part) as Htext.
  destruct (Genai.text part) as [[|c text]|]; cbn [truthy_opt truthy].
  - rewrite Htext. simpl. by rewrite append_empty_r.
  - apply updateModelMessage_bubble. rewrite Htext. by apply truthy_append_r.
  - rewrite Htext. simpl. by rewrite append_empty_r.
Qed.

Lemma show_parts_bubble (parts : list Genai.Part) (t : Turn) :
  foldl show_part (t, bubble_showing (turnText t)) parts
  = (foldl handle_part t parts, bubble_showing (turnText (foldl handle_part t parts))).
Proof.
  revert t. induction parts as [|part parts IH]; intros t; [reflexivity|].
  cbn [foldl]. by rewrite show_part_bubble, IH.
Qed.

Lemma show_message_bubble (t : Turn) (m : Genai.LiveServerMessage) :
  show_message (t, bubble_showing (turnText t)) m
  = (handle_message t m, bubble_showing (turnText (handle_message t m))).
Proof.
  unfold show_message, handle_message.
  destruct (message_parts m) as [parts|]; [rewrite show_parts_bubble|];
    cbn [fst snd]; by destruct (message_turnComplete m).
Qed.

(** X15. The bubble of a turn shows the transcript as it grows: after any
    number of dequeued messages it is a model message with the text of all
    parts so far, and it is still the loading indicator as long as no
    non-empty text has arrived, so a turn without text leaves the indicator
    in the chat.  Next to the bubble the variables of the turn are those of
    the loop without it. *)
Theorem bubble_shows_transcript (msgs : list Genai.LiveServerMessage)
    (parts0 : list string) :
  foldl show_message (initial_turn parts0, showLoadingIndicator) msgs
  = (foldl handle_message (initial_turn parts0) msgs,
     bubble_showing (texts (all_parts msgs))).
Proof.
  rewrite <- (append_empty_r (texts (all_parts msgs))).
  change (texts (all_parts msgs) +:+ EmptyString)
    with (EmptyString +:+ texts (all_parts msgs) +:+ EmptyString).
  rewrite append_empty_r.
  change EmptyString with (turnText (initial_turn parts0)) at 1.
  rewrite <- messages_turnText.
  change showLoadingIndicator with (bubble_showing (turnText (initial_turn parts0))).
  generalize (initial_turn parts0).
  induction msgs as [|m msgs IH]; intros t; [reflexivity|].
  cbn [foldl]. by rewrite show_message_bubble, IH.
Qed.

(** ** The page and its events *)

Lemma handleTurn_from_initial (s : Session) :
  handleTurn s = handleTurn_from (initial_turn (sessionAudioParts s)) (responseQueue s).
Proof.
  unfold handleTurn, handleTurn_from, finishTurn.
  destruct (turn_loop _ _) as [t queue]. reflexivity.
Qed.

Lemma handleTurn_from_cons (t : Turn) (m : Genai.LiveServerMessage)
    (queue : list Genai.LiveServerMessage) :
  turnComplete t = false →
  handleTurn_from t (m :: queue) = handleTurn_from (handle_message t m) queue.
Proof. intros H. unfold handleTurn_from. by rewrite turn_loop_cons. Qed.

Lemma handleTurn_from_done (t : Turn) (queue : list Genai.LiveServerMessage) :
  turnComplete t = true → handleTurn_from t queue = finishTurn true t queue.
Proof.
  intros H. unfold handleTurn_from. rewrite turn_loop_done by assumption.
  by rewrite H.
Qed.

Lemma handleTurn_from_nil (t : Turn) :
  turnComplete t = false →
  handleTurn_from t [] = (mkSession [] (audioParts t) true, Waiting t).
Proof. intros H. unfold handleTurn_from. cbn [turn_loop]. rewrite H. simpl. by rewrite H. Qed.

Lemma processQueueContinuously_busy (queue : list Genai.LiveServerMessage)
    (parts0 : list string) :
  processQueueContinuously (mkSession queue parts0 true) = (mkSession queue parts0 true, []).
Proof. apply processQueueContinuously_stops. by right. Qed.

Lemma processQueueContinuously_idle (m : Genai.LiveServerMessage)
    (queue : list Genai.LiveServerMessage) (parts0 : list string) :
  processQueueContinuously (mkSession (m :: queue) parts0 false)
  = let '(s1, outcome) := handleTurn_from (initial_turn parts0) (m :: queue) in
    let '(s2, outcomes) := processQueueContinuously s1 in
    (s2, outcome :: outcomes).
Proof.
  rewrite processQueueContinuously_step by done.
  by rewrite handleTurn_from_initial.
Qed.

Lemma turn_not_complete (t : Turn) :
  turnComplete t = false →
  Page.resume (Page.mkLocals (turnText t) (audioMimeType t)) (audioParts t) = t.
Proof. destruct t. simpl. by intros ->. Qed.

Lemma page_serialized_cases (σ : Page.State) :
  page_serialized σ →
  (∃ parts0 ended,
     σ = Page.mkState (mkSession [] parts0 false) [] ended)
  ∨ (∃ queue parts0 ended,
       σ = Page.mkState (mkSession queue parts0 true) [] ended)
  ∨ (∃ queue parts0 l ended,
       σ = Page.mkState (mkSession queue parts0 true) [l] ended).
Proof.
  destruct σ as [[queue parts0 busy] susp ended]. unfold page_serialized. simpl.
  intros (Hlen & Hbusy & Hidle).
  destruct susp as [|l [|l' susp]]; [| |simpl in Hlen; lia].
  - destruct busy.
    + right. left. by eexists _, _, _.
    + left. rewrite Hidle by reflexivity. by eexists _, _.
  - right. right. rewrite Hbusy by done. by eexists _, _, _, _.
Qed.

Lemma finishTurn_cases (busy : bool) (t : Turn) (queue : list Genai.LiveServerMessage) :
  (∃ parts1 audio,
     audio ≠ ConvertFailed
     ∧ ∀ queue', finishTurn busy t queue'
                 = (mkSession queue' parts1 false, Finished (turnText t) audio))
  ∨ (∀ queue', finishTurn busy t queue'
               = (mkSession queue' (audioParts t) busy, Finished (turnText t) ConvertFailed)).
Proof.
  unfold finishTurn.
  destruct (_ && _); [destruct (convertToWav _ _) as [wav|]|].
  - left. by exists [], (Played wav).
  - by right.
  - left. by exists (audioParts t), NoAudio.
Qed.

Ltac serialized :=
  unfold page_serialized; simpl;
  split; [lia | split; [intros ?; done | intros ?; done]].

Lemma page_processQueueContinuously_serialized (queue : list Genai.LiveServerMessage)
    (parts0 : list string) (ended : list Outcome) :
  page_serialized
    (Page.processQueueContinuously (Page.mkState (mkSession queue parts0 false) [] ended)).
Proof.
  unfold Page.processQueueContinuously, Page.handleTurn_start.
  destruct queue; serialized.
Qed.

Lemma page_step_serialized (σ : Page.State) (e : Page.Event) :
  page_serialized σ → page_serialized (Page.step σ e).
Proof.
  intros Hσ.
  destruct (page_serialized_cases σ Hσ)
    as [(parts0 & ended & ->) | [(queue & parts0 & ended & ->)
                                | (queue & parts0 & l & ended & ->)]];
    destruct e as [m | i].
  - (* idle, a message arrives *)
    unfold Page.step, Page.onmessage, Page.processQueueContinuously. simpl.
    unfold Page.handleTurn_start. serialized.
  - exact Hσ.
  - (* wedged, a message arrives *)
    unfold Page.step, Page.onmessage, Page.processQueueContinuously. simpl.
    destruct (queue ++ [m]); serialized.
  - exact Hσ.
  - (* a call in flight, a message arrives *)
    unfold Page.step, Page.onmessage, Page.processQueueContinuously. simpl.
    destruct (queue ++ [m]); serialized.
  - (* a call in flight, its interval fires *)
    destruct i as [|i]; [|exact Hσ].
    destruct queue as [|message queue]; [exact Hσ|].
    cbn [Page.step Page.tick Page.suspended Page.session responseQueue
         sessionAudioParts isProcessingTurn lookup list_lookup].
    destruct (turnComplete (handle_message (Page.resume l parts0) message)) eqn:Hdone.
    + destruct (finishTurn_cases true (handle_message (Page.resume l parts0) message) queue)
        as [(parts1 & audio & Haudio & ->) | ->].
      * destruct audio; [| |done]; apply page_processQueueContinuously_serialized.
      * serialized.
    + serialized.
Qed.

Lemma page_run_serialized (events : list Page.Event) (σ : Page.State) :
  page_serialized σ → page_serialized (foldl Page.step σ events).
Proof.
  revert σ. induction events as [|e events IH]; intros σ Hσ; [exact Hσ|].
  cbn [foldl]. by apply IH, page_step_serialized.
Qed.

Lemma page_initial_serialized : page_serialized Page.initial.
Proof. serialized. Qed.

(** X16. Turns are serialized.  Whatever messages arrive and whenever the
    interval timers fire, at most one call of [handleTurn] is in flight; one
    is in flight only while [isProcessingTurn] is set; and the page is never
    idle with messages left in the queue. *)
Theorem page_turns_are_serialized (events : list Page.Event) :
  (length (Page.suspended (Page.run events)) ≤ 1)%nat
  ∧ (Page.suspended (Page.run events) ≠ []
     → isProcessingTurn (Page.session (Page.run events)) = true)
  ∧ (isProcessingTurn (Page.session (Page.run events)) = false
     → responseQueue (Page.session (Page.run events)) = []).
Proof.
  pose proof (page_run_serialized events Page.initial page_initial_serialized)
    as (Hone & Hflag & Hidle).
  split; [exact Hone|]. split; [exact Hflag | exact Hidle].
Qed.

Lemma page_turns_are_serialized_witness :
  isProcessingTurn
    (Page.session (Page.run [Page.OnMessage (msg (Some [textPart "Hi"]) None);
                             Page.Tick 0;
                             Page.OnMessage (msg None (Some true))]))
  = true.
Proof.
  apply (page_turns_are_serialized
           [Page.OnMessage (msg (Some [textPart "Hi"]) None); Page.Tick 0;
            Page.OnMessage (msg None (Some true))]).
  discriminate.
Defined.

(** Delivering a message, or letting an interval fire, does not change what
    the turns come to. *)
Lemma page_outlook_step (σ : Page.State) (e : Page.Event)
    (future : list Genai.LiveServerMessage) :
  page_serialized σ →
  page_outlook (Page.step σ e) future
  = page_outlook σ (match e with
                    | Page.OnMessage m => m :: future
                    | Page.Tick _ => future
                    end).
Proof.
  intros Hσ.
  destruct (page_serialized_cases σ Hσ)
    as [(parts0 & ended & ->) | [(queue & parts0 & ended & ->)
                                | (queue & parts0 & l & ended & ->)]];
    destruct e as [m | i]; try reflexivity.
  - (* idle, a message arrives: a turn starts *)
    unfold Page.step, Page.onmessage, Page.processQueueContinuously,
      Page.handleTurn_start, page_outlook. simpl.
    by rewrite processQueueContinuously_idle.
  - (* wedged, a message arrives *)
    unfold Page.step, Page.onmessage, Page.processQueueContinuously, page_outlook.
    simpl.
    assert (∀ σ', match queue ++ [m] with [] => σ' | _ :: _ => σ' end = σ') as ->
      by (intros; by destruct (queue ++ [m])).
    simpl. by rewrite <- app_assoc.
  - (* a call in flight, a message arrives *)
    unfold Page.step, Page.onmessage, Page.processQueueContinuously, page_outlook.
    simpl.
    assert (∀ σ', match queue ++ [m] with [] => σ' | _ :: _ => σ' end = σ') as ->
      by (intros; by destruct (queue ++ [m])).
    simpl. by rewrite <- app_assoc.
  - (* a call in flight, its interval fires *)
    destruct i as [|i]; [|reflexivity].
    destruct queue as [|message queue]; [reflexivity|].
    cbn [Page.step Page.tick Page.suspended Page.session responseQueue
         sessionAudioParts isProcessingTurn lookup list_lookup].
    set (t := handle_message (Page.resume l parts0) message).
    unfold page_outlook at 2.
    cbn [Page.suspended Page.session Page.ended responseQueue sessionAudioParts
         isProcessingTurn app].
    rewrite handleTurn_from_cons by reflexivity. fold t.
    destruct (turnComplete t) eqn:Hdone.
    + rewrite handleTurn_from_done by assumption.
      destruct (finishTurn_cases true t queue)
        as [(parts1 & audio & Haudio & Hfinish) | Hfinish]; rewrite !Hfinish.
      * (* the turn ends well: the flag is cleared, the next turn may start *)
        assert (match Finished (turnText t) audio with
                | Finished _ ConvertFailed =>
                    Page.mkState (mkSession queue parts1 false) (delete 0%nat [l])
                      (ended ++ [Finished (turnText t) audio])
                | _ => Page.processQueueContinuously
                         (Page.mkState (mkSession queue parts1 false) (delete 0%nat [l])
                            (ended ++ [Finished (turnText t) audio]))
                end
                = Page.processQueueContinuously
                    (Page.mkState (mkSession queue parts1 false) []
                       (ended ++ [Finished (turnText t) audio]))) as ->
          by (by destruct audio).
        unfold Page.processQueueContinuously, Page.handleTurn_start, page_outlook.
        destruct queue as [|message' queue]; simpl.
        -- destruct (processQueueContinuously _) as [s2 outcomes].
           by rewrite <- app_assoc.
        -- rewrite processQueueContinuously_idle.
           change (Page.resume (Page.mkLocals EmptyString EmptyString) parts1)
             with (initial_turn parts1).
           destruct (handleTurn_from _ _) as [s1 outcome].
           destruct (processQueueContinuously s1) as [s2 outcomes].
           by rewrite <- app_assoc.
      * (* the conversion throws: the page is wedged *)
        unfold page_outlook. simpl.
        rewrite !processQueueContinuously_busy.
        by rewrite app_nil_r.
    + (* the call waits for its next message *)
      unfold page_outlook. simpl.
      by rewrite (turn_not_complete t Hdone).
Qed.

Lemma page_outlook_run (events : list Page.Event) (σ : Page.State)
    (future : list Genai.LiveServerMessage) :
  page_serialized σ →
  page_outlook (foldl Page.step σ events) future
  = page_outlook σ (Page.delivered events ++ future).
Proof.
  revert σ. induction events as [|e events IH]; intros σ Hσ; [reflexivity|].
  cbn [foldl]. rewrite IH by (by apply page_step_serialized).
  rewrite page_outlook_step by assumption.
  by destruct e.
Qed.

(** The outlook of a page on which nothing is left to do is the page. *)
Lemma page_outlook_settled (σ : Page.State) :
  page_serialized σ →
  responseQueue (Page.session σ) = [] ∨ Page.suspended σ = [] →
  page_outlook σ [] = (Page.session σ, Page.ended σ ++ Page.waiting σ).
Proof.
  intros Hσ Hsettled.
  destruct (page_serialized_cases σ Hσ)
    as [(parts0 & ended & ->) | [(queue & parts0 & ended & ->)
                                | (queue & parts0 & l & ended & ->)]];
    unfold page_outlook, Page.waiting;
    cbn [Page.session Page.suspended Page.ended responseQueue sessionAudioParts
         isProcessingTurn fmap list_fmap] in *.
  - reflexivity.
  - by rewrite app_nil_r, processQueueContinuously_busy.
  - destruct Hsettled as [-> | ?]; [|done].
    cbn [app]. rewrite handleTurn_from_nil by reflexivity.
    by rewrite processQueueContinuously_busy.
Qed.

(** A firing interval takes one message off the queue, unless no call is in
    flight. *)
Lemma page_tick_queue (σ : Page.State) (n : nat) :
  page_serialized σ →
  (length (responseQueue (Page.session σ)) ≤ S n)%nat ∨ Page.suspended σ = [] →
  (length (responseQueue (Page.session (Page.tick 0 σ))) ≤ n)%nat
  ∨ Page.suspended (Page.tick 0 σ) = [].
Proof.
  intros Hσ Hn.
  destruct (page_serialized_cases σ Hσ)
    as [(parts0 & ended & ->) | [(queue & parts0 & ended & ->)
                                | (queue & parts0 & l & ended & ->)]];
    [by right | by right |].
  destruct Hn as [Hn | ?]; [|done]. simpl in Hn.
  destruct queue as [|message queue]; [left; simpl; lia|].
  simpl in Hn.
  cbn [Page.tick Page.suspended Page.session responseQueue
       sessionAudioParts isProcessingTurn lookup list_lookup].
  destruct (turnComplete (handle_message (Page.resume l parts0) message)).
  - destruct (finishTurn_cases true (handle_message (Page.resume l parts0) message) queue)
      as [(parts1 & audio & Haudio & ->) | ->].
    + left.
      assert (∀ σ', responseQueue (Page.session (Page.processQueueContinuously σ'))
                    = responseQueue (Page.session σ')) as Hsame.
      { intros σ'. unfold Page.processQueueContinuously.
        destruct (responseQueue (Page.session σ')) eqn:E; [by rewrite E|].
        destruct (isProcessingTurn (Page.session σ')); [by rewrite E|].
        by rewrite <- E. }
      destruct audio; [| |done]; rewrite Hsame; simpl; lia.
    + by right.
  - left. simpl. lia.
Qed.

Lemma page_ticks_settle (n : nat) (σ : Page.State) :
  page_serialized σ →
  (length (responseQueue (Page.session σ)) ≤ n)%nat ∨ Page.suspended σ = [] →
  let σ' := foldl Page.step σ (replicate n (Page.Tick 0)) in
  responseQueue (Page.session σ') = [] ∨ Page.suspended σ' = [].
Proof.
  revert σ. induction n as [|n IH]; intros σ Hσ Hn.
  - destruct Hn as [Hn | ?]; [left | by right].
    simpl. destruct (responseQueue (Page.session σ)); [done | simpl in Hn; lia].
  - cbn [replicate foldl]. apply IH.
    + by apply (page_step_serialized σ (Page.Tick 0)).
    + by apply page_tick_queue.
Qed.

Lemma page_delivered_app (events more : list Page.Event) :
  Page.delivered (events ++ more) = Page.delivered events ++ Page.delivered more.
Proof. unfold Page.delivered. apply omap_app. Qed.

Lemma page_delivered_ticks (n i : nat) : Page.delivered (replicate n (Page.Tick i)) = [].
Proof. induction n as [|n IH]; [reflexivity | exact IH]. Qed.

Lemma page_outlook_initial (msgs : list Genai.LiveServerMessage) :
  page_outlook Page.initial msgs
  = processQueueContinuously (mkSession msgs [] false).
Proof.
  unfold page_outlook. simpl. by destruct (processQueueContinuously _).
Qed.

Lemma page_outlook_ended (σ : Page.State) (future : list Genai.LiveServerMessage) :
  ∃ rest, (page_outlook σ future).2 = Page.ended σ ++ rest.
Proof.
  unfold page_outlook.
  destruct (match Page.suspended σ with [] => _ | l :: _ => _ end) as [s' rest].
  by exists rest.
Qed.

(** X17. The turns do not depend on timing.  Take any interleaving of
    delivered messages and firing intervals after which nothing is left to
    do (the queue is empty, or no call is in flight).  Then the page is where
    [processQueueContinuously] gets on the queue of all delivered messages at
    once: the same queue, [audioParts] and flag, and the same outcomes in the
    same order, the call still in flight being the turn that waits. *)
Theorem page_agrees_with_queue (events : list Page.Event) :
  responseQueue (Page.session (Page.run events)) = []
  ∨ Page.suspended (Page.run events) = [] →
  processQueueContinuously (mkSession (Page.delivered events) [] false)
  = (Page.session (Page.run events),
     Page.ended (Page.run events) ++ Page.waiting (Page.run events)).
Proof.
  unfold Page.run. intros Hsettled.
  pose proof (page_run_serialized events Page.initial page_initial_serialized) as Hσ.
  rewrite <- (page_outlook_settled _ Hσ Hsettled).
  rewrite page_outlook_run by exact page_initial_serialized.
  by rewrite app_nil_r, page_outlook_initial.
Qed.

Lemma page_agrees_with_queue_witness :
  processQueueContinuously (mkSession
      [msg (Some [textPart "Hel"]) None; msg (Some [textPart "lo"]) (Some true);
       msg (Some [textPart "Bye"]) None] [] false)
  = (mkSession [] [] true,
     [Finished "Hello" NoAudio;
      Waiting (mkTurn false "Bye" EmptyString [])]).
Proof.
  apply (page_agrees_with_queue
           [Page.OnMessage (msg (Some [textPart "Hel"]) None); Page.Tick 0; Page.Tick 0;
            Page.OnMessage (msg (Some [textPart "lo"]) (Some true));
            Page.OnMessage (msg (Some [textPart "Bye"]) None);
            Page.Tick 0; Page.Tick 0]).
  left. reflexivity.
Defined.

(** X18. Outcomes are never revised.  At any moment, whatever has been
    delivered and whenever the intervals fired, the turns that have ended on
    the page are the first outcomes, in order, of [processQueueContinuously]
    on the queue of all messages delivered so far. *)
Theorem page_ended_is_prefix (events : list Page.Event) :
  ∃ rest,
    (processQueueContinuously (mkSession (Page.delivered events) [] false)).2
    = Page.ended (Page.run events) ++ rest.
Proof.
  rewrite <- page_outlook_initial.
  rewrite <- (app_nil_r (Page.delivered events)).
  rewrite <- (page_outlook_run events Page.initial [] page_initial_serialized).
  apply page_outlook_ended.
Qed.

(** X19. The intervals drain the queue.  From any state the page can reach,
    as many firings of the interval as there are messages in the queue leave
    nothing to do, and the page is then where [processQueueContinuously] gets
    on all delivered messages at once. *)
Theorem page_drains (events : list Page.Event) :
  let n := length (responseQueue (Page.session (Page.run events))) in
  let σ := Page.run (events ++ replicate n (Page.Tick 0)) in
  (responseQueue (Page.session σ) = [] ∨ Page.suspended σ = [])
  ∧ processQueueContinuously (mkSession (Page.delivered events) [] false)
    = (Page.session σ, Page.ended σ ++ Page.waiting σ).
Proof.
  intros n σ. unfold Page.run in (value of n), (value of σ).
  pose proof (page_run_serialized events Page.initial page_initial_serialized) as Hσ.
  assert (responseQueue (Page.session σ) = [] ∨ Page.suspended σ = []) as Hsettled.
  { unfold σ. rewrite foldl_app.
    apply page_ticks_settle; [exact Hσ | by left]. }
  split; [exact Hsettled|].
  pose proof (page_run_serialized (events ++ replicate n (Page.Tick 0)) Page.initial
                page_initial_serialized) as Hσ'.
  fold σ in Hσ'. rewrite <- (page_outlook_settled σ Hσ' Hsettled).
  unfold σ. rewrite page_outlook_run by exact page_initial_serialized.
  by rewrite page_delivered_app, page_delivered_ticks, !app_nil_r, page_outlook_initial.
Qed.

(** ** Chunks without a format *)

(** X20. A turn that completes without any non-empty [mimeType] among its
    audio parts plays nothing, returns its transcript, clears
    [isProcessingTurn], and leaves in [audioParts] the chunks it found there
    followed by the chunks of its own parts, in arrival order. *)
Theorem turn_without_format_keeps_chunks (pre : list Genai.LiveServerMessage)
    (last : Genai.LiveServerMessage) (post : list Genai.LiveServerMessage)
    (parts0 : list string) (busy : bool) :
  Forall (λ m, message_turnComplete m = false) pre →
  message_turnComplete last = true →
  Forall (λ mimeType, mimeType = EmptyString)
         (audio_mimeTypes (all_parts (pre ++ [last]))) →
  handleTurn (mkSession (pre ++ last :: post) parts0 busy)
  = (mkSession post (parts0 ++ audio_datas (all_parts (pre ++ [last]))) false,
     Finished (texts (all_parts (pre ++ [last]))) NoAudio).
Proof.
  intros Hpre Hlast Hmimes.
  apply silent_turn_keeps_audioParts; [assumption..|].
  induction Hmimes as [|mimeType mimeTypes -> _ IH]; [reflexivity|].
  by rewrite first_truthy_cons.
Qed.

Lemma turn_without_format_keeps_chunks_witness :
  handleTurn (mkSession
      [msg (Some [audioPart (Some "Q0Q="%string) None; textPart "Hi"]) None;
       msg (Some [audioPart (Some "RUY="%string) (Some EmptyString)]) (Some true)]
      ["QUI="%string] false)
  = (mkSession [] ["QUI="; "Q0Q="; "RUY="]%string false, Finished "Hi" NoAudio).
Proof.
  apply (turn_without_format_keeps_chunks
           [msg (Some [audioPart (Some "Q0Q="%string) None; textPart "Hi"]) None]
           (msg (Some [audioPart (Some "RUY="%string) (Some EmptyString)]) (Some true))
           [] ["QUI="%string] false).
  - repeat constructor.
  - reflexivity.
  - repeat constructor.
Defined.
